(** * Fire Operations Guide: page controller and caching worker

    A shallow embedding of the repository's three scripts:

    - [App]: src/app.js, the page controller (navigation between named
      pages, the PDF viewing state, zoom);
    - [Legacy]: the earlier revision of the page controller, which shows
      documents in an embedded frame and keeps no PDF state;
    - [Worker]: src/service-worker.js, the caching worker with its
      install, fetch and activate handlers.

    The module-level variables of a script become the fields of a state
    record and every function becomes a state transformer.  The browser
    objects the scripts call (the document, cache storage, the network)
    are modelled next to the handlers that use them. *)

From Stdlib Require Import Floats.PrimFloat ZArith Ascii String.
From stdpp Require Import gmap strings list.

Open Scope string_scope.
Open Scope Z_scope.

(** ** String helpers used by [openDocument] *)

(** [s.split(sep).pop()]: the part of [s] after the last [sep], the whole
    string when [sep] does not occur. *)
Fixpoint split_pop (sep : ascii) (acc s : string) : string :=
  match s with
  | EmptyString => acc
  | String c s' =>
      if Ascii.eqb c sep then split_pop sep "" s'
      else split_pop sep (acc +:+ String c "") s'
  end.

(** [toLowerCase] on the ASCII letters; other bytes are left alone. *)
Definition lower_ascii (c : ascii) : ascii :=
  let n := nat_of_ascii c in
  if ((65 <=? n) && (n <=? 90))%nat then ascii_of_nat (n + 32) else c.

Fixpoint toLowerCase (s : string) : string :=
  match s with
  | EmptyString => EmptyString
  | String c s' => String (lower_ascii c) (toLowerCase s')
  end.

(** ** src/app.js *)

Module App.

(** What the script reads of a loaded PDF document. *)
Record PDFDocumentProxy := { numPages : Z }.

(** The module-level variables ([previousPage], [pdfDoc], [currentPage],
    [scale]) and, of the document, the page element that carries the
    class [active].  [scale] is a JavaScript number: a binary64 float.
    The viewer elements the functions address without a guard
    (['image-viewer'], ['pdf-canvas'], ['document-title'], ...) are taken
    to be in the markup; what is written to them is never read back. *)
Record State := {
  previousPage : string;
  pdfDoc : option PDFDocumentProxy;
  currentPage : Z;
  scale : float;
  activePage : option string
}.

Definition MAX_SCALE : float := 3.0%float.
Definition MIN_SCALE : float := 0.5%float.
Definition SCALE_STEP : float := 0.25%float.

(** The state right after the script has been evaluated; which page the
    markup shows first is not the script's business. *)
Definition init (shown : option string) : State :=
  {| previousPage := "home-page"; pdfDoc := None; currentPage := 1;
     scale := 1.5%float; activePage := shown |}.

(** [showPage(pageId)].  [dom] lists the ids of the elements of the
    document: [getElementById] finds a target or yields null, and the
    function guards that with [if (targetPage)]. *)
Definition showPage (dom : list string) (pageId : string) (st : State) : State :=
  let targetPage := if bool_decide (pageId ∈ dom) then Some pageId else None in
  {| previousPage :=
       if bool_decide (pageId ≠ "viewer-page") then pageId else previousPage st;
     pdfDoc := pdfDoc st;
     currentPage := currentPage st;
     scale := scale st;
     activePage := targetPage |}.

(** The test on the file extension in [openDocument]. *)
Definition extension (documentPath : string) : string :=
  toLowerCase (split_pop "."%char "" documentPath).

Definition isImage (documentPath : string) : bool :=
  let e := extension documentPath in
  bool_decide (e = "png") || bool_decide (e = "jpg") || bool_decide (e = "jpeg").

(** [openDocument(documentPath)] up to the call of [loadPDF]: the viewer
    page is shown and, for a PDF, the page number goes back to 1.  The
    title and the display styles it writes are never read back. *)
Definition openDocument (dom : list string) (documentPath : string) (st : State) : State :=
  let st1 := showPage dom "viewer-page" st in
  if isImage documentPath then st1
  else {| previousPage := previousPage st1; pdfDoc := pdfDoc st1;
          currentPage := 1; scale := scale st1; activePage := activePage st1 |}.

(** [loadPDF] after its [await]: the loading task has resolved with [doc].
    When the task rejects, the [catch] reports it and no variable changes. *)
Definition loadPDF_resolved (doc : PDFDocumentProxy) (st : State) : State :=
  {| previousPage := previousPage st; pdfDoc := Some doc;
     currentPage := currentPage st; scale := scale st;
     activePage := activePage st |}.

Definition nextPage (st : State) : State :=
  match pdfDoc st with
  | None => st
  | Some doc =>
      if currentPage st >=? numPages doc then st
      else {| previousPage := previousPage st; pdfDoc := pdfDoc st;
              currentPage := currentPage st + 1; scale := scale st;
              activePage := activePage st |}
  end.

Definition prevPage (st : State) : State :=
  match pdfDoc st with
  | None => st
  | Some _ =>
      if currentPage st <=? 1 then st
      else {| previousPage := previousPage st; pdfDoc := pdfDoc st;
              currentPage := currentPage st - 1; scale := scale st;
              activePage := activePage st |}
  end.

Definition zoomIn (st : State) : State :=
  match pdfDoc st with
  | None => st
  | Some _ =>
      if PrimFloat.ltb (scale st) MAX_SCALE then
        {| previousPage := previousPage st; pdfDoc := pdfDoc st;
           currentPage := currentPage st;
           scale := PrimFloat.add (scale st) SCALE_STEP;
           activePage := activePage st |}
      else st
  end.

Definition zoomOut (st : State) : State :=
  match pdfDoc st with
  | None => st
  | Some _ =>
      if PrimFloat.ltb MIN_SCALE (scale st) then
        {| previousPage := previousPage st; pdfDoc := pdfDoc st;
           currentPage := currentPage st;
           scale := PrimFloat.sub (scale st) SCALE_STEP;
           activePage := activePage st |}
      else st
  end.

(** [closeDocument()]: the PDF state is cleared, then [showPage] is called
    with the marker. *)
Definition closeDocument (dom : list string) (st : State) : State :=
  let st1 := {| previousPage := previousPage st; pdfDoc := None;
                currentPage := 1; scale := 1.5%float;
                activePage := activePage st |} in
  showPage dom (previousPage st1) st1.

(** What can happen to the page: a call of one of the functions from the
    markup, or the completion of a pending PDF load. *)
Inductive Action :=
| CallShowPage (pageId : string)
| CallOpenDocument (documentPath : string)
| PdfLoaded (doc : PDFDocumentProxy)
| CallNextPage
| CallPrevPage
| CallZoomIn
| CallZoomOut
| CallCloseDocument.

Definition step (dom : list string) (st : State) (a : Action) : State :=
  match a with
  | CallShowPage pageId => showPage dom pageId st
  | CallOpenDocument documentPath => openDocument dom documentPath st
  | PdfLoaded doc => loadPDF_resolved doc st
  | CallNextPage => nextPage st
  | CallPrevPage => prevPage st
  | CallZoomIn => zoomIn st
  | CallZoomOut => zoomOut st
  | CallCloseDocument => closeDocument dom st
  end.

Definition run (dom : list string) (actions : list Action) (st : State) : State :=
  fold_left (step dom) actions st.

(** The values [scale] takes: the quarter steps from 0.5 to 3.0, each one
    exact in binary64. *)
Definition scale_grid : list float :=
  [0.5; 0.75; 1.0; 1.25; 1.5; 1.75; 2.0; 2.25; 2.5; 2.75; 3.0]%float.

End App.

(** ** The earlier page controller (embedded-frame viewer) *)

Module Legacy.

Record State := {
  previousPage : string;
  activePage : option string;
  pdfViewerSrc : string;
  imageViewerSrc : string
}.

Definition init (shown : option string) : State :=
  {| previousPage := "home-page"; activePage := shown;
     pdfViewerSrc := ""; imageViewerSrc := "" |}.

Definition showPage (dom : list string) (pageId : string) (st : State) : State :=
  let targetPage := if bool_decide (pageId ∈ dom) then Some pageId else None in
  {| previousPage :=
       if bool_decide (pageId ≠ "viewer-page") then pageId else previousPage st;
     activePage := targetPage;
     pdfViewerSrc := pdfViewerSrc st;
     imageViewerSrc := imageViewerSrc st |}.

Definition openDocument (dom : list string) (documentPath : string) (st : State) : State :=
  let st1 := showPage dom "viewer-page" st in
  if App.isImage documentPath then
    {| previousPage := previousPage st1; activePage := activePage st1;
       pdfViewerSrc := pdfViewerSrc st1; imageViewerSrc := documentPath |}
  else
    {| previousPage := previousPage st1; activePage := activePage st1;
       pdfViewerSrc := documentPath +:+ "#view=FitH";
       imageViewerSrc := imageViewerSrc st1 |}.

Definition closeDocument (dom : list string) (st : State) : State :=
  let st1 := {| previousPage := previousPage st; activePage := activePage st;
                pdfViewerSrc := ""; imageViewerSrc := "" |} in
  showPage dom (previousPage st1) st1.

End Legacy.

(** ** src/service-worker.js *)

Module Worker.

(** *** The browser objects the worker calls *)

(** [Response.type]. *)
Inductive ResponseType := Basic | Cors | Default | Error | Opaque | OpaqueRedirect.

#[global] Instance ResponseType_eq_dec : EqDecision ResponseType.
Proof. solve_decision. Defined.

Record Response := { status : Z; type : ResponseType; body : string }.

(** [Response.ok]. *)
Definition ok (r : Response) : bool := (200 <=? status r) && (status r <=? 299).

(** [response.clone()]: a second handle on the same status, type and body. *)
Definition clone (r : Response) : Response := r.

(** A request is identified by its URL: the page loads its shell and its
    documents with plain GET requests, the kind a cache accepts and
    matches.  A cache maps requests to responses; cache storage is the
    list of the named caches in the order they were created, which is the
    order [caches.keys()] reports and [caches.match] searches. *)
Abbreviation Request := string (only parsing).
Abbreviation Cache := (gmap string Response) (only parsing).
Abbreviation CacheStorage := (list (string * gmap string Response)) (only parsing).

(** How a promise settles. *)
Inductive Settled (A : Type) :=
| Fulfilled (a : A)
| Rejected.
Arguments Fulfilled {A} a.
Arguments Rejected {A}.

(** The calls a handler makes on cache storage and on the network. *)
Inductive Op :=
| OpMatch (req : Request)
| OpFetch (req : Request)
| OpOpen (cacheName : string)
| OpPut (cacheName : string) (req : Request) (resp : Response)
| OpAddAll (cacheName : string) (urls : list Request)
| OpKeys
| OpDelete (cacheName : string).

(** A promise chain a handler starts and neither returns nor awaits: the
    [caches.open(..).then(cache => cache.put(..))] of the fetch handler. *)
Inductive Task :=
| PutTask (cacheName : string) (req : Request) (resp : Response).

Record World := {
  storage : CacheStorage;
  trace : list Op;
  detached : list Task
}.

(** What lies outside the worker: how [fetch] settles for a request (a
    response, possibly none for the guard [!fetchResponse], or a
    rejection), and what other handlers did to cache storage while a
    request of the fetch handler was on the network. *)
Record Host := {
  fetch : Request → Settled (option Response);
  meanwhile : CacheStorage → CacheStorage
}.

(** Promise chains: a computation on the world that fulfils or rejects. *)
Definition M (A : Type) : Type := World → Settled A * World.

#[global] Instance M_ret : MRet M := λ A a w, (Fulfilled a, w).

(** [.then(f)] *)
#[global] Instance M_bind : MBind M := λ A B f m w,
  match m w with
  | (Fulfilled a, w') => f a w'
  | (Rejected, w') => (Rejected, w')
  end.

(** [.catch(() => k)] *)
Definition catch {A} (m k : M A) : M A := λ w,
  match m w with
  | (Rejected, w') => k w'
  | settled => settled
  end.

Definition log (op : Op) (w : World) : World :=
  {| storage := storage w; trace := trace w ++ [op]; detached := detached w |}.

Definition set_storage (cs : CacheStorage) (w : World) : World :=
  {| storage := cs; trace := trace w; detached := detached w |}.

(** The first match over the caches in creation order. *)
Fixpoint storage_match (cs : CacheStorage) (req : Request) : option Response :=
  match cs with
  | [] => None
  | (_, c) :: rest =>
      match c !! req with
      | Some r => Some r
      | None => storage_match rest req
      end
  end.

(** The name of the cache that match comes from. *)
Fixpoint first_holder (cs : CacheStorage) (req : Request) : option string :=
  match cs with
  | [] => None
  | (n, c) :: rest =>
      match c !! req with
      | Some _ => Some n
      | None => first_holder rest req
      end
  end.

(** The cache of a given name. *)
Fixpoint store_get (cacheName : string) (cs : CacheStorage) : option (gmap string Response) :=
  match cs with
  | [] => None
  | (n, c) :: rest => if bool_decide (n = cacheName) then Some c else store_get cacheName rest
  end.

(** [cache.match(req)] on the cache of that name. *)
Definition cache_lookup (cacheName : string) (cs : CacheStorage) (req : Request) : option Response :=
  c ← store_get cacheName cs; c !! req.

(** Create-if-absent: a new cache goes to the end of the list. *)
Definition store_open (cacheName : string) (cs : CacheStorage) : CacheStorage :=
  if bool_decide (cacheName ∈ cs.*1) then cs else cs ++ [(cacheName, ∅)].

Definition store_put (cacheName : string) (req : Request) (resp : Response)
    (cs : CacheStorage) : CacheStorage :=
  (λ p : string * gmap string Response,
     if bool_decide (p.1 = cacheName) then (p.1, <[req := resp]> (p.2)) else p) <$> cs.

Definition store_delete (cacheName : string) (cs : CacheStorage) : CacheStorage :=
  filter (λ p : string * gmap string Response, p.1 ≠ cacheName) cs.

(** [caches.match(req)] *)
Definition caches_match (req : Request) : M (option Response) := λ w,
  (Fulfilled (storage_match (storage w) req), log (OpMatch req) w).

(** [caches.open(cacheName)]; the cache handle is its name. *)
Definition caches_open (cacheName : string) : M string := λ w,
  (Fulfilled cacheName, log (OpOpen cacheName) (set_storage (store_open cacheName (storage w)) w)).

(** [cache.put(req, resp)] *)
Definition cache_put (cache : string) (req : Request) (resp : Response) : M unit := λ w,
  (Fulfilled (), log (OpPut cache req resp) (set_storage (store_put cache req resp (storage w)) w)).

(** [caches.keys()] *)
Definition caches_keys : M (list string) := λ w,
  (Fulfilled ((storage w).*1), log OpKeys w).

(** [caches.delete(cacheName)]: fulfils with whether the cache existed. *)
Definition caches_delete (cacheName : string) : M bool := λ w,
  (Fulfilled (bool_decide (cacheName ∈ (storage w).*1)),
   log (OpDelete cacheName) (set_storage (store_delete cacheName (storage w)) w)).

(** [fetch(req)] in the fetch handler: time passes on the network. *)
Definition net_fetch (h : Host) (req : Request) : M (option Response) := λ w,
  let w' := log (OpFetch req) (set_storage (meanwhile h (storage w)) w) in
  match fetch h req with
  | Fulfilled r => (Fulfilled r, w')
  | Rejected => (Rejected, w')
  end.

(** What [cache.addAll] accepts for one URL: a response with an ok status
    other than 206. *)
Definition addAll_entry (h : Host) (url : Request) : option (Request * Response) :=
  match fetch h url with
  | Fulfilled (Some r) => if ok r && negb (status r =? 206) then Some (url, r) else None
  | _ => None
  end.

(** [cache.addAll(urls)]: every URL is fetched; the entries are written
    only when every one was accepted, otherwise the promise rejects and the
    cache is left as it was. *)
Definition cache_addAll (h : Host) (cache : string) (urls : list Request) : M unit := λ w,
  let w1 := log (OpAddAll cache urls) w in
  match mapM (addAll_entry h) urls with
  | Some entries =>
      (Fulfilled (),
       set_storage (foldl (λ cs e, store_put cache e.1 e.2 cs) (storage w1) entries) w1)
  | None => (Rejected, w1)
  end.

(** [Promise.all] over promises started in list order. *)
Fixpoint promise_all {A} (ms : list (M A)) : M (list A) :=
  match ms with
  | [] => mret []
  | m :: ms' => a ← m; rest ← promise_all ms'; mret (a :: rest)
  end.

(** [array.indexOf(x)] *)
Fixpoint indexOf (l : list string) (x : string) : Z :=
  match l with
  | [] => -1
  | y :: l' =>
      if bool_decide (y = x) then 0
      else let i := indexOf l' x in if i =? -1 then -1 else i + 1
  end.

Definition detach (t : Task) : M unit := λ w,
  (Fulfilled (), {| storage := storage w; trace := trace w; detached := detached w ++ [t] |}).

(** *** The script *)

Definition CACHE_NAME : string := "fire-ops-v1".

Definition urlsToCache : list Request :=
  ["/"; "/index.html"; "/style.css"; "/app.js"; "/manifest.json"].

(** The [install] handler: the promise given to [event.waitUntil]. *)
Definition on_install (h : Host) : M unit :=
  cache ← caches_open CACHE_NAME;
  cache_addAll h cache urlsToCache.

(** The [fetch] handler: the promise given to [event.respondWith]. *)
Definition on_fetch (h : Host) (request : Request) : M (option Response) :=
  response ← caches_match request;
  match response with
  | Some _ => mret response
  | None =>
      catch
        (fetchResponse ← net_fetch h request;
         match fetchResponse with
         | None => mret fetchResponse
         | Some r =>
             if bool_decide (status r ≠ 200) || bool_decide (type r ≠ Basic)
             then mret fetchResponse
             else
               let responseToCache := clone r in
               detach (PutTask CACHE_NAME request responseToCache);;
               mret fetchResponse
         end)
        (caches_match request)
  end.

(** The [activate] handler: the promise given to [event.waitUntil].  The
    callback of [map] yields undefined for a whitelisted name. *)
Definition on_activate : M (list (option bool)) :=
  let cacheWhitelist := [CACHE_NAME] in
  cacheNames ← caches_keys;
  promise_all
    ((λ cacheName : string,
        if bool_decide (indexOf cacheWhitelist cacheName = -1)
        then (deleted ← caches_delete cacheName; mret (Some deleted))
        else mret None) <$> cacheNames).

(** *** The host's side of the events *)

Definition run_task (t : Task) : M unit :=
  match t with
  | PutTask cacheName req resp =>
      cache ← caches_open cacheName;
      cache_put cache req resp
  end.

(** The detached chains run to their end. *)
Definition settle (w : World) : World :=
  foldl (λ w t, (run_task t w).2)
        {| storage := storage w; trace := trace w; detached := [] |}
        (detached w).

(** What the page's [fetch] gets from [respondWith]: the response the
    promise fulfilled with, a network error when it fulfilled with no
    response or rejected. *)
Inductive Reply :=
| Delivered (r : Response)
| NetworkError.

Definition respondWith (p : Settled (option Response)) : Reply :=
  match p with
  | Fulfilled (Some r) => Delivered r
  | Fulfilled None => NetworkError
  | Rejected => NetworkError
  end.

Record Outcome := { reply : Reply; after : World }.

(** One intercepted fetch, from the event to the settled world. *)
Definition fetch_event (h : Host) (cs : CacheStorage) (request : Request) : Outcome :=
  let '(p, w) := on_fetch h request {| storage := cs; trace := []; detached := [] |} in
  {| reply := respondWith p; after := settle w |}.

(** The life of one version of the worker. *)
Inductive Phase := Installing | Waiting | Active | Redundant.

Inductive Event :=
| InstallEvent
| ActivateEvent
| FetchEvent (request : Request).

Record Registration := { phase : Phase; cacheStorage : CacheStorage }.

(** The host dispatches an event in the phase it belongs to; a rejected
    install promise discards the version. *)
Definition dispatch (reg : Registration) (e : Host * Event) : Registration :=
  let w := {| storage := cacheStorage reg; trace := []; detached := [] |} in
  match e.2, phase reg with
  | InstallEvent, Installing =>
      let '(p, w') := on_install e.1 w in
      {| phase := match p with Fulfilled _ => Waiting | Rejected => Redundant end;
         cacheStorage := storage (settle w') |}
  | ActivateEvent, Waiting =>
      let '(_, w') := on_activate w in
      {| phase := Active; cacheStorage := storage (settle w') |}
  | FetchEvent request, Active =>
      {| phase := Active; cacheStorage := storage (after (fetch_event e.1 (cacheStorage reg) request)) |}
  | _, _ => reg
  end.

Definition lifecycle (events : list (Host * Event)) (reg : Registration) : Registration :=
  foldl dispatch reg events.

(** Cache storage as activation leaves it: no cache but the current one. *)
Definition purged (cs : CacheStorage) : Prop :=
  ∀ p, p ∈ cs → p.1 = CACHE_NAME.

(** *** A deployment to evaluate the handlers on *)

Definition shell_page : Response :=
  {| status := 200; type := Basic; body := "<!DOCTYPE html>" |}.

Definition stale_page : Response :=
  {| status := 200; type := Basic; body := "<!-- earlier release -->" |}.

Definition hose_lays : Response :=
  {| status := 200; type := Basic; body := "%PDF-1.7" |}.

Definition pdf_worker : Response :=
  {| status := 0; type := Opaque; body := "" |}.

Definition not_found : Response :=
  {| status := 404; type := Basic; body := "Not Found" |}.

Definition pdf_worker_url : Request :=
  "https://cdnjs.cloudflare.com/ajax/libs/pdf.js/3.11.174/pdf.worker.min.js".

(** The site is reachable and serves the shell and one document. *)
Definition online : Host :=
  {| fetch := λ url,
       if bool_decide (url ∈ urlsToCache) then Fulfilled (Some shell_page)
       else if bool_decide (url = "/docs/hose-lays.pdf") then Fulfilled (Some hose_lays)
       else if bool_decide (url = pdf_worker_url) then Fulfilled (Some pdf_worker)
       else Fulfilled (Some not_found);
     meanwhile := id |}.

(** No connectivity. *)
Definition offline : Host :=
  {| fetch := λ _, Rejected; meanwhile := id |}.

(** No connectivity, and while the request was failing another handler
    finished caching the document. *)
Definition offline_after_peer : Host :=
  {| fetch := λ _, Rejected;
     meanwhile := λ cs,
       store_put CACHE_NAME "/docs/hose-lays.pdf" hose_lays (store_open CACHE_NAME cs) |}.

(** The stylesheet is missing from the deployed site. *)
Definition broken_deploy : Host :=
  {| fetch := λ url,
       if bool_decide (url = "/style.css") then Fulfilled (Some not_found)
       else fetch online url;
     meanwhile := id |}.

(** Cache storage after a first install from the reachable site. *)
Definition installed : CacheStorage :=
  cacheStorage (dispatch {| phase := Installing; cacheStorage := [] |} (online, InstallEvent)).

(** The document comes through a proxy that has changed it: a success
    status, but not 200. *)
Definition relayed_document : Response :=
  {| status := 203; type := Basic; body := "%PDF-1.7" |}.

Definition behind_proxy : Host :=
  {| fetch := λ _, Fulfilled (Some relayed_document); meanwhile := id |}.

(** Cache storage holding a cache of an earlier generation next to the
    current one. *)
Definition two_generations : CacheStorage :=
  [("fire-ops-v0", {[ "/index.html" := stale_page ]});
   (CACHE_NAME, {[ "/index.html" := shell_page ]})].

End Worker.

(** ** The document title written by [openDocument] (src/app.js) *)

Module Title.

(** Whether every character of the string is in the ASCII range.  On such
    strings a string of this development is the JavaScript string, unit by
    unit, and [toUpperCase] and [toLowerCase] change the letters a-z and
    A-Z and nothing else; outside that range JavaScript maps further
    letters, some to more than one character, which is not modelled: the
    title is described for ASCII paths only. *)
Fixpoint is_ascii (s : string) : bool :=
  match s with
  | EmptyString => true
  | String c s' => (nat_of_ascii c <? 128)%nat && is_ascii s'
  end.

(** [toUpperCase] on one character of the ASCII range. *)
Definition upper_ascii (c : ascii) : ascii :=
  let n := nat_of_ascii c in
  if ((97 <=? n) && (n <=? 122))%nat then ascii_of_nat (n - 32) else c.

(** [s.split(sep)] for a one-character separator: never empty, the empty
    string gives one empty word. *)
Fixpoint split (sep : ascii) (s : string) : list string :=
  match s with
  | EmptyString => [EmptyString]
  | String c s' =>
      if Ascii.eqb c sep then EmptyString :: split sep s'
      else match split sep s' with
           | w :: ws => String c w :: ws
           | [] => [String c EmptyString]
           end
  end.

(** [words.join(sep)] *)
Fixpoint join (sep : string) (words : list string) : string :=
  match words with
  | [] => EmptyString
  | w :: ws =>
      match ws with
      | [] => w
      | _ :: _ => w +:+ sep +:+ join sep ws
      end
  end.

(** Whether [/\.(pdf|png|jpg|jpeg)$/i] matches from the start of [s] to
    its end. *)
Definition is_extension (s : string) : bool :=
  bool_decide (toLowerCase s ∈ [".pdf"; ".png"; ".jpg"; ".jpeg"]).

(** [s.replace(/\.(pdf|png|jpg|jpeg)$/i, '')]: the string is cut at the
    leftmost position from which the rest matches. *)
Fixpoint strip_extension (s : string) : string :=
  match s with
  | EmptyString => EmptyString
  | String c s' =>
      if is_extension s then EmptyString else String c (strip_extension s')
  end.

(** [word.charAt(0).toUpperCase() + word.slice(1)] *)
Definition capitalize (word : string) : string :=
  match word with
  | EmptyString => EmptyString
  | String c rest => String (upper_ascii c) rest
  end.

(** [documentPath.split('/').pop().replace(..)] *)
Definition fileName (documentPath : string) : string :=
  strip_extension (List.last (split "/" documentPath) EmptyString).

(** What [openDocument] writes into ['document-title']. *)
Definition formattedName (documentPath : string) : string :=
  join " " (capitalize <$> split "-" (fileName documentPath)).

(** Whether the character occurs in the string. *)
Fixpoint occurs (c : ascii) (s : string) : bool :=
  match s with
  | EmptyString => false
  | String d s' => Ascii.eqb d c || occurs c s'
  end.

End Title.

(** ** The install prompt (src/app.js) *)

Module InstallPrompt.

(** [deferredPrompt] holds the last [beforeinstallprompt] event (events
    are told apart by a number), [installPromptShown] is the flag; the
    counters record what the handlers add to the page: install buttons
    appended by [showInstallPrompt], timers started for the iOS hint, and
    iOS hints appended when such a timer fires. *)
Record State := {
  deferredPrompt : option nat;
  installPromptShown : bool;
  installButtons : nat;
  iosTimers : nat;
  iosPrompts : nat
}.

Definition init : State :=
  {| deferredPrompt := None; installPromptShown := false;
     installButtons := 0; iosTimers := 0; iosPrompts := 0 |}.

(** The [beforeinstallprompt] listener. *)
Definition beforeinstallprompt (e : nat) (st : State) : State :=
  if installPromptShown st then
    {| deferredPrompt := Some e; installPromptShown := true;
       installButtons := installButtons st; iosTimers := iosTimers st;
       iosPrompts := iosPrompts st |}
  else
    {| deferredPrompt := Some e; installPromptShown := true;
       installButtons := S (installButtons st); iosTimers := iosTimers st;
       iosPrompts := iosPrompts st |}.

(** The second [load] listener. *)
Definition load (isIOS isInStandaloneMode : bool) (st : State) : State :=
  if isIOS && negb isInStandaloneMode && negb (installPromptShown st) then
    {| deferredPrompt := deferredPrompt st; installPromptShown := true;
       installButtons := installButtons st; iosTimers := S (iosTimers st);
       iosPrompts := iosPrompts st |}
  else st.

(** The callback of the two-second timer. *)
Definition ios_timer (st : State) : State :=
  match iosTimers st with
  | O => st
  | S pending =>
      {| deferredPrompt := deferredPrompt st;
         installPromptShown := installPromptShown st;
         installButtons := installButtons st; iosTimers := pending;
         iosPrompts := S (iosPrompts st) |}
  end.

(** The click handler of the install button after its [await], and the
    [appinstalled] listener: both clear the saved event. *)
Definition clear_prompt (st : State) : State :=
  {| deferredPrompt := None; installPromptShown := installPromptShown st;
     installButtons := installButtons st; iosTimers := iosTimers st;
     iosPrompts := iosPrompts st |}.

Inductive Event :=
| BeforeInstallPrompt (e : nat)
| Load (isIOS isInStandaloneMode : bool)
| IosTimer
| ChoiceMade
| AppInstalled.

Definition step (st : State) (ev : Event) : State :=
  match ev with
  | BeforeInstallPrompt e => beforeinstallprompt e st
  | Load isIOS isInStandaloneMode => load isIOS isInStandaloneMode st
  | IosTimer => ios_timer st
  | ChoiceMade => clear_prompt st
  | AppInstalled => clear_prompt st
  end.

Definition run (events : list Event) : State := fold_left step events init.

End InstallPrompt.

(** ** Vocabulary for the properties below *)

(** What the user can do while the viewer is open, short of leaving it. *)
Definition viewer_action (a : App.Action) : bool :=
  match a with
  | App.PdfLoaded _ | App.CallNextPage | App.CallPrevPage
  | App.CallZoomIn | App.CallZoomOut => true
  | _ => false
  end.

(** The page controller with no document open: a page of the markup other
    than the viewer is shown and is the marker, and the PDF state is
    clear. *)
Definition resting (dom : list string) (st : App.State) : Prop :=
  App.previousPage st ∈ dom
  ∧ App.previousPage st ≠ "viewer-page"
  ∧ App.activePage st = Some (App.previousPage st)
  ∧ App.pdfDoc st = None
  ∧ App.currentPage st = 1
  ∧ App.scale st = 1.5%float.

(** The same for the earlier controller. *)
Definition legacy_resting (dom : list string) (st : Legacy.State) : Prop :=
  Legacy.previousPage st ∈ dom
  ∧ Legacy.previousPage st ≠ "viewer-page"
  ∧ Legacy.activePage st = Some (Legacy.previousPage st)
  ∧ Legacy.pdfViewerSrc st = ""
  ∧ Legacy.imageViewerSrc st = "".

(** The calls the fetch handler may make for a request. *)
Definition fetch_footprint (request : string) (op : Worker.Op) : Prop :=
  op = Worker.OpMatch request
  ∨ op = Worker.OpFetch request
  ∨ op = Worker.OpOpen Worker.CACHE_NAME
  ∨ ∃ r, op = Worker.OpPut Worker.CACHE_NAME request r.

Definition is_network_call (op : Worker.Op) : bool :=
  match op with
  | Worker.OpFetch _ => true
  | _ => false
  end.

Example extension_pdf : App.extension "docs/Hose-Lays.PDF" = "pdf".
Proof. reflexivity. Qed.

Example zoomIn_once :
  App.scale (App.zoomIn (App.loadPDF_resolved {| App.numPages := 3 |} (App.init None)))
  = 1.75%float.
Proof. reflexivity. Qed.

(** * Properties of the page controller *)

Section PageController.

Import App.

Implicit Types (dom : list string) (st : State) (actions : list Action).

Lemma run_snoc dom actions a st :
  run dom (actions ++ [a]) st = step dom (run dom actions st) a.
Proof. unfold run. by rewrite fold_left_app. Qed.

(** [showPage] stores its argument in the marker unless the argument is
    the viewer page. *)
Lemma showPage_marker dom pageId st :
  previousPage (showPage dom pageId st) ≠ "viewer-page" ↔
  pageId ≠ "viewer-page" ∨ previousPage st ≠ "viewer-page".
Proof.
  unfold showPage; simpl. case_bool_decide as Hid; intuition congruence.
Qed.

Lemma closeDocument_marker dom st :
  previousPage (closeDocument dom st) = previousPage st.
Proof. unfold closeDocument, showPage; simpl. by case_bool_decide. Qed.

Lemma step_marker dom st a :
  previousPage st ≠ "viewer-page" →
  previousPage (step dom st a) ≠ "viewer-page".
Proof.
  intros Hst. destruct a; cbn [step].
  - apply showPage_marker. by right.
  - unfold openDocument. destruct (isImage _); exact Hst.
  - done.
  - unfold nextPage. destruct (pdfDoc st); [destruct (_ >=? _)|]; done.
  - unfold prevPage. destruct (pdfDoc st); [destruct (_ <=? _)|]; done.
  - unfold zoomIn. destruct (pdfDoc st); [destruct (PrimFloat.ltb _ _)|]; done.
  - unfold zoomOut. destruct (pdfDoc st); [destruct (PrimFloat.ltb _ _)|]; done.
  - by rewrite closeDocument_marker.
Qed.

Lemma run_marker dom actions shown :
  previousPage (run dom actions (init shown)) ≠ "viewer-page".
Proof.
  induction actions as [|a actions IH] using rev_ind; [done|].
  rewrite run_snoc. by apply step_marker.
Qed.

(** Every zoom step from a point of the grid lands on the grid, and the
    grid lies between the two bounds. *)
Lemma scale_grid_closed (s : float) :
  s ∈ scale_grid →
  (if PrimFloat.ltb s MAX_SCALE then PrimFloat.add s SCALE_STEP else s) ∈ scale_grid
  ∧ (if PrimFloat.ltb MIN_SCALE s then PrimFloat.sub s SCALE_STEP else s) ∈ scale_grid
  ∧ PrimFloat.leb MIN_SCALE s = true
  ∧ PrimFloat.leb s MAX_SCALE = true
  ∧ (PrimFloat.leb MAX_SCALE s = true → PrimFloat.ltb s MAX_SCALE = false)
  ∧ (PrimFloat.leb s MIN_SCALE = true → PrimFloat.ltb MIN_SCALE s = false).
Proof.
  unfold scale_grid. intros Hs.
  repeat (apply elem_of_cons in Hs as [->|Hs]);
    [.. | by apply elem_of_nil in Hs];
    cbv [MAX_SCALE MIN_SCALE SCALE_STEP]; cbn;
    repeat split; try discriminate; try reflexivity;
    repeat first [apply list_elem_of_here | apply list_elem_of_further].
Qed.

Lemma step_scale_grid dom st a :
  scale st ∈ scale_grid → scale (step dom st a) ∈ scale_grid.
Proof.
  intros Hst. pose proof (scale_grid_closed _ Hst) as (Hin & Hout & _).
  destruct a; cbn [step]; try done.
  - unfold openDocument. by destruct (isImage _).
  - unfold nextPage. destruct (pdfDoc st); [destruct (_ >=? _)|]; done.
  - unfold prevPage. destruct (pdfDoc st); [destruct (_ <=? _)|]; done.
  - unfold zoomIn. destruct (pdfDoc st); [|done].
    clear Hout. revert Hin. by destruct (PrimFloat.ltb (scale st) MAX_SCALE).
  - unfold zoomOut. destruct (pdfDoc st); [|done].
    clear Hin. revert Hout. by destruct (PrimFloat.ltb MIN_SCALE (scale st)).
  - unfold closeDocument, showPage, scale_grid; simpl.
    repeat first [apply list_elem_of_here | apply list_elem_of_further].
Qed.

Lemma run_scale_grid dom actions shown :
  scale (run dom actions (init shown)) ∈ scale_grid.
Proof.
  induction actions as [|a actions IH] using rev_ind.
  - unfold scale_grid; simpl.
    repeat first [apply list_elem_of_here | apply list_elem_of_further].
  - rewrite run_snoc. by apply step_scale_grid.
Qed.

(** C8 (as amended): [closeDocument] puts the current page number and the
    zoom scale back at their initial values and drops the loaded document;
    the previous-page marker is not reset, it keeps the page the user came
    from.  [closeDocument] then calls [showPage] with the marker: the
    element of that id is made active when the document has one, and no
    page is active when it has none.  The earlier controller, which has no
    page number or scale, keeps and uses the marker in the same way. *)
Theorem closeDocument_resets_pdf_state dom st :
  let st' := closeDocument dom st in
  currentPage st' = currentPage (init None)
  ∧ scale st' = scale (init None)
  ∧ pdfDoc st' = None
  ∧ previousPage st' = previousPage st
  ∧ activePage st'
    = (if bool_decide (previousPage st ∈ dom) then Some (previousPage st) else None)
  ∧ ∀ old : Legacy.State,
      Legacy.previousPage (Legacy.closeDocument dom old) = Legacy.previousPage old
      ∧ Legacy.activePage (Legacy.closeDocument dom old)
        = (if bool_decide (Legacy.previousPage old ∈ dom)
           then Some (Legacy.previousPage old) else None).
Proof.
  cbv zeta. split; [done|]. split; [done|]. split; [done|].
  split; [apply closeDocument_marker|]. split; [done|].
  intros old. unfold Legacy.closeDocument, Legacy.showPage; simpl.
  split; [by case_bool_decide | done].
Qed.

(** C8, as stated, fails: after a visit to another page the marker holds
    that page, and closing a document leaves it there. *)
Lemma closeDocument_keeps_marker_example :
  let dom := ["home-page"; "sop-page"; "viewer-page"] in
  let st := run dom
              [CallShowPage "sop-page"; CallOpenDocument "docs/hose-lays.pdf";
               PdfLoaded {| numPages := 4 |}; CallNextPage; CallZoomIn]
              (init (Some "home-page")) in
  ¬ (currentPage (closeDocument dom st) = currentPage (init (Some "home-page"))
     ∧ scale (closeDocument dom st) = scale (init (Some "home-page"))
     ∧ previousPage (closeDocument dom st) = previousPage (init (Some "home-page"))).
Proof.
  cbv zeta. intros (_ & _ & Hmarker). vm_compute in Hmarker. discriminate.
Qed.

(** C9: the previous-page marker never holds the viewer page.  [showPage]
    writes the marker only for another page, so from the initial
    ['home-page'] every state the page can reach keeps the marker off
    ['viewer-page'], and [closeDocument] does not show the viewer page. *)
Theorem previousPage_never_viewer dom shown actions :
  let st := run dom actions (init shown) in
  (∀ pageId st0,
      previousPage (showPage dom pageId st0) =
      if bool_decide (pageId ≠ "viewer-page") then pageId else previousPage st0)
  ∧ previousPage st ≠ "viewer-page"
  ∧ activePage (closeDocument dom st) ≠ Some "viewer-page".
Proof.
  cbv zeta. split; [done|].
  pose proof (run_marker dom actions shown) as Hst. split; [done|].
  unfold closeDocument, showPage; simpl.
  case_bool_decide; [|done]. congruence.
Qed.

(** C10: the zoom scale stays between [MIN_SCALE] and [MAX_SCALE].  From
    the initial 1.5, after any sequence of calls (zoom, page turns, opening
    and closing documents, navigation) and PDF loads, the scale is within
    the bounds; [zoomIn] changes nothing at or above [MAX_SCALE], [zoomOut]
    nothing at or below [MIN_SCALE], and neither does without a loaded PDF
    document. *)
Theorem scale_within_bounds dom shown actions :
  let st := run dom actions (init shown) in
  (PrimFloat.leb MIN_SCALE (scale st) = true ∧ PrimFloat.leb (scale st) MAX_SCALE = true)
  ∧ (PrimFloat.leb MAX_SCALE (scale st) = true → zoomIn st = st)
  ∧ (PrimFloat.leb (scale st) MIN_SCALE = true → zoomOut st = st)
  ∧ (pdfDoc st = None → zoomIn st = st ∧ zoomOut st = st).
Proof.
  cbv zeta.
  pose proof (scale_grid_closed _ (run_scale_grid dom actions shown))
    as (_ & _ & Hmin & Hmax & Htop & Hbottom).
  split; [done|]. split; [|split].
  - intros Hle. unfold zoomIn. destruct (pdfDoc _); [|done]. by rewrite Htop.
  - intros Hle. unfold zoomOut. destruct (pdfDoc _); [|done]. by rewrite Hbottom.
  - intros Hnone. unfold zoomIn, zoomOut. by rewrite Hnone.
Qed.

End PageController.

(** * Properties of the caching worker *)

Section CachingWorker.

Import Worker.

Implicit Types (h : Host) (cs : list (string * gmap string Response)).
Implicit Types (req request url cacheName : string) (r resp : Response).

(** ** Cache storage *)

Lemma store_get_None cacheName cs :
  store_get cacheName cs = None ↔ cacheName ∉ cs.*1.
Proof.
  induction cs as [|[n c] cs IH]; simpl.
  - split; [intros _; apply not_elem_of_nil | done].
  - rewrite not_elem_of_cons. simpl. case_bool_decide as Hn.
    + split; [done | intros [Hne _]; congruence].
    + rewrite IH. split; [intros Hcs; split; [congruence | done] | by intros [_ Hcs]].
Qed.

Lemma store_get_open cacheName cs :
  store_get cacheName (store_open cacheName cs)
  = Some (default ∅ (store_get cacheName cs)).
Proof.
  unfold store_open. case_bool_decide as Hin.
  - destruct (store_get cacheName cs) eqn:Hget; [done|].
    by apply store_get_None in Hget.
  - apply store_get_None in Hin as Hget. rewrite Hget. simpl.
    clear Hget. induction cs as [|[n c] cs IH]; simpl.
    + by rewrite bool_decide_eq_true_2.
    + apply not_elem_of_cons in Hin as [Hne Hin]. simpl in Hne.
      rewrite bool_decide_eq_false_2 by done. by apply IH.
Qed.

Lemma store_get_put cacheName req resp cs :
  store_get cacheName (store_put cacheName req resp cs)
  = (λ c, <[req := resp]> c) <$> store_get cacheName cs.
Proof.
  induction cs as [|[n c] cs IH]; [done|]. simpl.
  case_bool_decide as Hn; simpl.
  - by rewrite bool_decide_eq_true_2.
  - by rewrite bool_decide_eq_false_2.
Qed.

Lemma store_get_put_ne cacheName other req resp cs :
  other ≠ cacheName →
  store_get other (store_put cacheName req resp cs) = store_get other cs.
Proof.
  intros Hne. induction cs as [|[n c] cs IH]; [done|]. simpl.
  case_bool_decide as Hn; simpl; [|by rewrite IH].
  subst n. by rewrite !bool_decide_eq_false_2.
Qed.

Lemma store_put_names cacheName req resp cs :
  (store_put cacheName req resp cs).*1 = cs.*1.
Proof.
  unfold store_put. rewrite <- list_fmap_compose.
  apply list_fmap_ext. intros _ [n c] _. simpl. by case_bool_decide.
Qed.

Lemma store_open_names cacheName cs : cacheName ∈ (store_open cacheName cs).*1.
Proof.
  unfold store_open. case_bool_decide; [done|].
  rewrite fmap_app. apply elem_of_app. right. simpl. apply list_elem_of_here.
Qed.

Lemma cache_lookup_open cacheName cs req :
  cache_lookup cacheName (store_open cacheName cs) req = cache_lookup cacheName cs req.
Proof.
  unfold cache_lookup. rewrite store_get_open.
  destruct (store_get cacheName cs); simpl; [done|]. apply lookup_empty.
Qed.

Lemma cache_lookup_put cacheName req resp cs req' :
  cacheName ∈ cs.*1 →
  cache_lookup cacheName (store_put cacheName req resp cs) req'
  = if bool_decide (req = req') then Some resp else cache_lookup cacheName cs req'.
Proof.
  intros Hin. unfold cache_lookup. rewrite store_get_put.
  destruct (store_get cacheName cs) as [c|] eqn:Hget; simpl.
  - rewrite lookup_insert. by repeat case_decide; repeat case_bool_decide.
  - by apply store_get_None in Hget.
Qed.

(** A match comes from one of the caches. *)
Lemma storage_match_Some cs req r :
  storage_match cs req = Some r → ∃ n c, (n, c) ∈ cs ∧ c !! req = Some r.
Proof.
  induction cs as [|[n c] cs IH]; [done|]. simpl.
  destruct (c !! req) as [x|] eqn:Hc.
  - intros [= ->]. exists n, c. split; [apply list_elem_of_here|done].
  - intros (n' & c' & Hin & Hr)%IH. exists n', c'.
    split; [by apply list_elem_of_further|done].
Qed.

(** An entry of a named cache is found by the search over all caches. *)
Lemma storage_match_of_lookup cacheName cs req r :
  cache_lookup cacheName cs req = Some r →
  is_Some (storage_match cs req)
  ∧ (first_holder cs req = Some cacheName → storage_match cs req = Some r).
Proof.
  unfold cache_lookup.
  induction cs as [|[n c] cs IH]; [done|]. simpl.
  case_bool_decide as Hn; simpl.
  - subst n. intros ->. split; [by eexists|done].
  - intros Hr. destruct (c !! req) as [x|] eqn:Hc.
    + split; [by eexists|]. congruence.
    + by apply IH.
Qed.

Lemma storage_match_open cacheName cs req :
  storage_match (store_open cacheName cs) req = storage_match cs req.
Proof.
  unfold store_open. case_bool_decide as Hin; [done|]. clear Hin.
  induction cs as [|[n c] cs IH]; simpl; [by rewrite lookup_empty|].
  by destruct (c !! req).
Qed.

Lemma storage_match_put cacheName cs req resp :
  cacheName ∈ cs.*1 →
  is_Some (storage_match (store_put cacheName req resp cs) req)
  ∧ (storage_match cs req = None →
     storage_match (store_put cacheName req resp cs) req = Some resp).
Proof.
  induction cs as [|[n c] cs IH]; simpl.
  - by intros ?%elem_of_nil.
  - intros Hin. case_bool_decide as Hn; simpl.
    + rewrite lookup_insert_eq. split; [by eexists|done].
    + apply elem_of_cons in Hin as [?|Hin]; [done|].
      destruct (IH Hin) as [Hsome Hfresh].
      destruct (c !! req) as [x|]; [|done].
      split; [by eexists|done].
Qed.

(** ** The fetch handler, case by case *)

Lemma fetch_event_hit h cs request cached :
  storage_match cs request = Some cached →
  fetch_event h cs request =
  {| reply := Delivered cached;
     after := {| storage := cs; trace := [OpMatch request]; detached := [] |} |}.
Proof.
  intros Hhit. unfold fetch_event, on_fetch, mbind, M_bind, caches_match; simpl.
  by rewrite Hhit.
Qed.

Lemma fetch_event_rejected h cs request :
  storage_match cs request = None →
  fetch h request = Rejected →
  fetch_event h cs request =
  {| reply := respondWith (Fulfilled (storage_match (meanwhile h cs) request));
     after := {| storage := meanwhile h cs;
                 trace := [OpMatch request; OpFetch request; OpMatch request];
                 detached := [] |} |}.
Proof.
  intros Hmiss Hnet.
  unfold fetch_event, on_fetch, mbind, M_bind, caches_match, catch, net_fetch; simpl.
  by rewrite Hmiss, Hnet.
Qed.

Lemma fetch_event_cached h cs request r :
  storage_match cs request = None →
  fetch h request = Fulfilled (Some r) →
  status r = 200 → type r = Basic →
  fetch_event h cs request =
  {| reply := Delivered r;
     after := {| storage := store_put CACHE_NAME request r
                              (store_open CACHE_NAME (meanwhile h cs));
                 trace := [OpMatch request; OpFetch request;
                           OpOpen CACHE_NAME; OpPut CACHE_NAME request r];
                 detached := [] |} |}.
Proof.
  intros Hmiss Hnet Hstatus Htype.
  unfold fetch_event, on_fetch, mbind, M_bind, caches_match, catch, net_fetch; simpl.
  rewrite Hmiss, Hnet, Hstatus, Htype. simpl. done.
Qed.

Lemma fetch_event_passed_on h cs request fetchResponse :
  storage_match cs request = None →
  fetch h request = Fulfilled fetchResponse →
  (∀ r, fetchResponse = Some r → status r ≠ 200 ∨ type r ≠ Basic) →
  fetch_event h cs request =
  {| reply := respondWith (Fulfilled fetchResponse);
     after := {| storage := meanwhile h cs;
                 trace := [OpMatch request; OpFetch request];
                 detached := [] |} |}.
Proof.
  intros Hmiss Hnet Hinvalid.
  unfold fetch_event, on_fetch, mbind, M_bind, caches_match, catch, net_fetch; simpl.
  rewrite Hmiss, Hnet. destruct fetchResponse as [r|]; [|done].
  destruct (Hinvalid r eq_refl) as [Hs|Ht].
  - by rewrite (bool_decide_eq_true_2 _ Hs).
  - rewrite (bool_decide_eq_true_2 (type r ≠ Basic) Ht), orb_true_r. done.
Qed.

(** ** The claims on the fetch handler *)

(** C1: cache first.  When the current cache holds the request, the
    handler answers with a cached response and does nothing else: its only
    call is the lookup, so no network request, no freshness check and no
    revalidation take place, and cache storage is left as it was.  The
    lookup is [caches.match], which searches the named caches in creation
    order; the answer is the entry of the current cache whenever that cache
    is the first to hold the request. *)
Theorem fetch_hit_served_from_cache h cs request r :
  cache_lookup CACHE_NAME cs request = Some r →
  ∃ cached,
    storage_match cs request = Some cached
    ∧ fetch_event h cs request =
      {| reply := Delivered cached;
         after := {| storage := cs; trace := [OpMatch request]; detached := [] |} |}
    ∧ (first_holder cs request = Some CACHE_NAME → cached = r).
Proof.
  intros Hcurrent.
  destruct (storage_match_of_lookup _ _ _ _ Hcurrent) as [[cached Hhit] Hfirst].
  exists cached. split; [done|]. split; [by apply fetch_event_hit|].
  intros Hholder. specialize (Hfirst Hholder). congruence.
Qed.

Lemma fetch_hit_served_from_cache_witness :
  cache_lookup CACHE_NAME installed "/index.html" = Some shell_page
  ∧ fetch_event offline installed "/index.html" =
    {| reply := Delivered shell_page;
       after := {| storage := installed; trace := [OpMatch "/index.html"];
                   detached := [] |} |}.
Proof.
  assert (cache_lookup CACHE_NAME installed "/index.html" = Some shell_page)
    as Hcurrent by (vm_compute; reflexivity).
  split; [exact Hcurrent|].
  destruct (fetch_hit_served_from_cache offline installed "/index.html"
              shell_page Hcurrent) as (cached & _ & Hevent & Hfirst).
  rewrite Hevent. rewrite Hfirst; [reflexivity|].
  vm_compute. reflexivity.
Defined.

(** Once activation has left only the current cache, that cache is the
    first holder of whatever it holds. *)
Lemma activated_first_holder cs request r :
  purged cs →
  cache_lookup CACHE_NAME cs request = Some r →
  first_holder cs request = Some CACHE_NAME.
Proof.
  unfold cache_lookup. induction cs as [|[n c] cs IH]; [done|].
  intros Hall. pose proof (Hall (n, c) (list_elem_of_here _ _)) as Hn.
  simpl in Hn. subst n. cbn [store_get first_holder].
  rewrite bool_decide_eq_true_2 by done. simpl. by intros ->.
Qed.

(** With a cache of an earlier generation still in storage, the first
    match in creation order is the earlier one. *)
Example fetch_serves_first_match :
  reply (fetch_event offline two_generations "/index.html") = Delivered stale_page.
Proof. vm_compute. reflexivity. Qed.

(** C2: a response that came from the network after a cache miss is put
    into the current cache, under the original request, exactly when it is
    present, has status 200 and is of type basic.  Any other response is
    handed to the caller as it is and the handler writes nothing. *)
Theorem network_response_cached_iff_valid h cs request fetchResponse :
  storage_match cs request = None →
  fetch h request = Fulfilled fetchResponse →
  let out := fetch_event h cs request in
  reply out = respondWith (Fulfilled fetchResponse)
  ∧ ((∃ resp, OpPut CACHE_NAME request resp ∈ trace (after out))
     ↔ (∃ r, fetchResponse = Some r ∧ status r = 200 ∧ type r = Basic))
  ∧ (∀ r, fetchResponse = Some r → status r = 200 → type r = Basic →
       trace (after out) = [OpMatch request; OpFetch request;
                            OpOpen CACHE_NAME; OpPut CACHE_NAME request (clone r)]
       ∧ storage (after out)
         = store_put CACHE_NAME request r (store_open CACHE_NAME (meanwhile h cs))
       ∧ cache_lookup CACHE_NAME (storage (after out)) request = Some r)
  ∧ (¬ (∃ r, fetchResponse = Some r ∧ status r = 200 ∧ type r = Basic) →
       trace (after out) = [OpMatch request; OpFetch request]
       ∧ storage (after out) = meanwhile h cs).
Proof.
  intros Hmiss Hnet. cbv zeta.
  assert ((∃ r, fetchResponse = Some r ∧ status r = 200 ∧ type r = Basic)
          ∨ (∀ r, fetchResponse = Some r → status r ≠ 200 ∨ type r ≠ Basic))
    as [(r & -> & Hstatus & Htype)|Hinvalid].
  { destruct fetchResponse as [r|]; [|by right].
    destruct (decide (status r = 200)); [|right; intros ? [= <-]; by left].
    destruct (decide (type r = Basic)); [left; by exists r|].
    right. intros ? [= <-]. by right. }
  - rewrite (fetch_event_cached h cs request r) by done. simpl.
    split; [done|]. split; [|split].
    + split; [by exists r| intros _]. exists r.
      do 3 apply list_elem_of_further. apply list_elem_of_here.
    + intros r' [= <-] _ _. split; [done|]. split; [done|].
      rewrite cache_lookup_put by apply store_open_names.
      by rewrite bool_decide_eq_true_2.
    + intros Hno. destruct Hno. by exists r.
  - rewrite (fetch_event_passed_on h cs request fetchResponse) by done.
    assert (¬ ∃ r, fetchResponse = Some r ∧ status r = 200 ∧ type r = Basic)
      as Hnone.
    { intros (r & Hr & Hs & Ht). by destruct (Hinvalid r Hr). }
    simpl. split; [done|]. split; [|split].
    + split; [|done]. intros [resp Hput].
      apply elem_of_cons in Hput as [?|Hput]; [done|].
      apply elem_of_cons in Hput as [?|Hput]; [done|].
      by apply elem_of_nil in Hput.
    + intros r Hr Hstatus Htype. destruct Hnone. by exists r.
    + done.
Qed.

Lemma network_response_cached_iff_valid_witness :
  let out := fetch_event online installed "/docs/hose-lays.pdf" in
  storage_match installed "/docs/hose-lays.pdf" = None
  ∧ reply out = Delivered hose_lays
  ∧ cache_lookup CACHE_NAME (storage (after out)) "/docs/hose-lays.pdf" = Some hose_lays.
Proof.
  cbv zeta.
  assert (storage_match installed "/docs/hose-lays.pdf" = None) as Hmiss
    by (vm_compute; reflexivity).
  assert (fetch online "/docs/hose-lays.pdf" = Fulfilled (Some hose_lays)) as Hnet
    by (vm_compute; reflexivity).
  destruct (network_response_cached_iff_valid online installed
              "/docs/hose-lays.pdf" (Some hose_lays) Hmiss Hnet)
    as (Hreply & _ & Hput & _).
  split; [exact Hmiss|]. split; [exact Hreply|].
  apply (Hput hose_lays); reflexivity.
Defined.

(** C4: when the lookup misses and the network request fails, the handler
    looks the same request up a second time.  A response that has reached
    cache storage in the meantime is delivered; when the second lookup
    misses too, the page's fetch fails. *)
Theorem network_failure_falls_back_to_cache h cs request :
  storage_match cs request = None →
  fetch h request = Rejected →
  let out := fetch_event h cs request in
  trace (after out) = [OpMatch request; OpFetch request; OpMatch request]
  ∧ (∀ cached, storage_match (meanwhile h cs) request = Some cached →
       reply out = Delivered cached)
  ∧ (storage_match (meanwhile h cs) request = None → reply out = NetworkError)
  ∧ storage (after out) = meanwhile h cs.
Proof.
  intros Hmiss Hnet. cbv zeta.
  rewrite (fetch_event_rejected h cs request) by done. simpl.
  split; [done|]. split; [|split]; [| |done].
  - by intros cached ->.
  - by intros ->.
Qed.

Lemma network_failure_falls_back_to_cache_witness :
  let out := fetch_event offline installed "/docs/hose-lays.pdf" in
  storage_match installed "/docs/hose-lays.pdf" = None
  ∧ fetch offline "/docs/hose-lays.pdf" = Rejected
  ∧ trace (after out) = [OpMatch "/docs/hose-lays.pdf"; OpFetch "/docs/hose-lays.pdf";
                         OpMatch "/docs/hose-lays.pdf"]
  ∧ reply out = NetworkError.
Proof.
  cbv zeta.
  assert (storage_match installed "/docs/hose-lays.pdf" = None) as Hmiss
    by (vm_compute; reflexivity).
  assert (fetch offline "/docs/hose-lays.pdf" = Rejected) as Hnet by reflexivity.
  destruct (network_failure_falls_back_to_cache offline installed
              "/docs/hose-lays.pdf" Hmiss Hnet) as (Htrace & _ & Hfail & _).
  split; [exact Hmiss|]. split; [exact Hnet|]. split; [exact Htrace|].
  apply Hfail. exact Hmiss.
Defined.

(** The fallback recovers what reached the cache during the request. *)
Example network_failure_recovered :
  reply (fetch_event offline_after_peer installed "/docs/hose-lays.pdf")
  = Delivered hose_lays.
Proof. vm_compute. reflexivity. Qed.

(** A cross-origin (opaque) response is passed on and fetched again the
    next time: two events, two network calls, nothing written. *)
Example opaque_response_fetched_twice :
  let first := fetch_event online installed pdf_worker_url in
  let second := fetch_event online (storage (after first)) pdf_worker_url in
  reply first = Delivered pdf_worker
  ∧ storage (after first) = installed
  ∧ trace (after second) = [OpMatch pdf_worker_url; OpFetch pdf_worker_url].
Proof. vm_compute. repeat split; reflexivity. Qed.

(** C6, as stated for every success status, fails: a basic response with
    status 203 is delivered but not stored, and the same request goes to the
    network again. *)
Lemma success_status_203_fetched_again :
  let first := fetch_event behind_proxy installed "/docs/hose-lays.pdf" in
  let second := fetch_event behind_proxy (storage (after first)) "/docs/hose-lays.pdf" in
  storage_match installed "/docs/hose-lays.pdf" = None
  ∧ ok relayed_document = true
  ∧ type relayed_document = Basic
  ∧ reply first = Delivered relayed_document
  ∧ storage (after first) = installed
  ∧ trace (after second)
    = [OpMatch "/docs/hose-lays.pdf"; OpFetch "/docs/hose-lays.pdf"]
  ∧ ¬ (trace (after second) = [OpMatch "/docs/hose-lays.pdf"]).
Proof.
  cbv zeta. vm_compute. repeat split; try reflexivity. discriminate.
Qed.

(** C6 (as amended): store, then look up, for status 200.  After a network
    response with status 200 and type basic has been delivered and its copy
    has been put into the cache, the same request is answered from cache
    storage by the lookup alone, without a network call; the answer is the
    response that was stored unless another handler cached the request
    ahead of it. *)
Theorem cached_response_served_without_network h h' cs request r :
  storage_match cs request = None →
  fetch h request = Fulfilled (Some r) →
  status r = 200 → type r = Basic →
  let first := fetch_event h cs request in
  let second := fetch_event h' (storage (after first)) request in
  reply first = Delivered r
  ∧ cache_lookup CACHE_NAME (storage (after first)) request = Some r
  ∧ (∃ cached, reply second = Delivered cached
               ∧ storage_match (storage (after first)) request = Some cached)
  ∧ trace (after second) = [OpMatch request]
  ∧ storage (after second) = storage (after first)
  ∧ (storage_match (meanwhile h cs) request = None → reply second = Delivered r).
Proof.
  intros Hmiss Hnet Hstatus Htype. cbv zeta.
  rewrite (fetch_event_cached h cs request r) by done. simpl.
  set (cs' := store_open CACHE_NAME (meanwhile h cs)).
  destruct (storage_match_put CACHE_NAME cs' request r (store_open_names _ _))
    as [[cached Hhit] Hfresh].
  rewrite (fetch_event_hit h' _ request cached Hhit). simpl.
  split; [done|]. split; [|split; [by exists cached|]].
  - rewrite cache_lookup_put by apply store_open_names.
    by rewrite bool_decide_eq_true_2.
  - split; [done|]. split; [done|].
    intros Hquiet. f_equal.
    rewrite Hfresh in Hhit; [congruence|].
    unfold cs'. by rewrite storage_match_open.
Qed.

Lemma cached_response_served_without_network_witness :
  let first := fetch_event online installed "/docs/hose-lays.pdf" in
  let second := fetch_event offline (storage (after first)) "/docs/hose-lays.pdf" in
  reply first = Delivered hose_lays
  ∧ reply second = Delivered hose_lays
  ∧ trace (after second) = [OpMatch "/docs/hose-lays.pdf"].
Proof.
  cbv zeta.
  assert (storage_match installed "/docs/hose-lays.pdf" = None) as Hmiss
    by (vm_compute; reflexivity).
  assert (fetch online "/docs/hose-lays.pdf" = Fulfilled (Some hose_lays)) as Hnet
    by (vm_compute; reflexivity).
  destruct (cached_response_served_without_network online offline installed
              "/docs/hose-lays.pdf" hose_lays Hmiss Hnet eq_refl eq_refl)
    as (Hfirst & _ & _ & Htrace & _ & Hsame).
  split; [exact Hfirst|]. split; [|exact Htrace].
  apply Hsame. exact Hmiss.
Defined.

(** ** The activate handler *)

Lemma indexOf_whitelist cacheName :
  indexOf [CACHE_NAME] cacheName = -1 ↔ cacheName ≠ CACHE_NAME.
Proof.
  simpl. case_bool_decide as Hn; simpl; split; try done; congruence.
Qed.

Lemma promise_all_cons {A} (m : M A) (ms : list (M A)) (w : World) :
  promise_all (m :: ms) w =
  match m w with
  | (Fulfilled a, w') =>
      match promise_all ms w' with
      | (Fulfilled rest, w'') => (Fulfilled (a :: rest), w'')
      | (Rejected, w'') => (Rejected, w'')
      end
  | (Rejected, w') => (Rejected, w')
  end.
Proof. reflexivity. Qed.

(** The promises of the [map] callback, one name after the other: the
    names outside the whitelist are deleted. *)
Lemma activate_deletes names (w : World) :
  ∃ results,
    promise_all
      ((λ cacheName : string,
          if bool_decide (indexOf [CACHE_NAME] cacheName = -1)
          then (deleted ← caches_delete cacheName; mret (M := M) (Some deleted))
          else mret None) <$> names) w
    = (Fulfilled results,
       {| storage :=
            foldl (λ cs n, if bool_decide (n = CACHE_NAME) then cs else store_delete n cs)
                  (storage w) names;
          trace := trace w ++ (OpDelete <$> filter (λ n, n ≠ CACHE_NAME) names);
          detached := detached w |}).
Proof.
  revert w. induction names as [|n names IH]; intros w.
  - exists []. cbn. unfold mret, M_ret. rewrite app_nil_r. by destruct w.
  - rewrite fmap_cons, promise_all_cons.
    case_bool_decide as Hidx.
    + apply indexOf_whitelist in Hidx.
      unfold mbind at 1, M_bind at 1, caches_delete at 1, mret at 1, M_ret at 1.
      edestruct IH as [results ->].
      eexists. cbn [foldl storage trace detached log set_storage].
      rewrite (bool_decide_eq_false_2 (n = CACHE_NAME)) by done.
      rewrite filter_cons_True by done. rewrite fmap_cons.
      by rewrite <- app_assoc.
    + assert (n = CACHE_NAME) as ->.
      { destruct (decide (n = CACHE_NAME)) as [|Hne]; [done|].
        by apply indexOf_whitelist in Hne. }
      unfold mret at 1, M_ret at 1.
      edestruct IH as [results ->].
      eexists. cbn [foldl].
      rewrite bool_decide_eq_true_2 by done.
      by rewrite filter_cons_False by (intros Hne; by apply Hne).
Qed.

Lemma purge_filter names cs :
  foldl (λ cs n, if bool_decide (n = CACHE_NAME) then cs else store_delete n cs) cs names
  = filter (λ p : string * gmap string Response, p.1 = CACHE_NAME ∨ p.1 ∉ names) cs.
Proof.
  revert cs. induction names as [|n names IH]; intros cs; simpl.
  - induction cs as [|p cs IHcs]; [done|].
    rewrite filter_cons_True by (right; apply not_elem_of_nil). by f_equal.
  - rewrite IH. case_bool_decide as Hn.
    + subst n. apply list_filter_iff. intros [m c]; simpl.
      rewrite not_elem_of_cons.
      destruct (decide (m = CACHE_NAME)); intuition congruence.
    + unfold store_delete. rewrite list_filter_filter.
      apply list_filter_iff. intros [m c]; simpl.
      rewrite not_elem_of_cons.
      destruct (decide (m = CACHE_NAME)); intuition congruence.
Qed.

Lemma filter_iff_elem {A} (P Q : A → Prop)
    `{!∀ x, Decision (P x)} `{!∀ x, Decision (Q x)} (l : list A) :
  (∀ x, x ∈ l → P x ↔ Q x) → filter P l = filter Q l.
Proof.
  induction l as [|x l IH]; intros Hiff; [done|].
  rewrite !filter_cons.
  rewrite IH by (intros y Hy; apply Hiff; by apply list_elem_of_further).
  pose proof (Hiff x (list_elem_of_here _ _)) as Hx.
  destruct (decide (P x)), (decide (Q x)); try done; exfalso; tauto.
Qed.

Lemma on_activate_storage cs (w : World) :
  storage w = cs →
  storage (on_activate w).2
  = filter (λ p : string * gmap string Response, p.1 = CACHE_NAME) cs.
Proof.
  intros <-.
  unfold on_activate, mbind at 1, M_bind at 1, caches_keys.
  edestruct activate_deletes as [results ->]. cbn [snd storage log].
  rewrite purge_filter. apply filter_iff_elem. intros [m c] Hin; simpl.
  split; [|by left]. intros [?|Hout]; [done|].
  destruct Hout. apply list_elem_of_fmap. by exists (m, c).
Qed.

Lemma settle_nothing_detached (w : World) :
  detached w = [] → storage (settle w) = storage w.
Proof. unfold settle. by intros ->. Qed.

Lemma on_activate_detached (w : World) :
  detached (on_activate w).2 = detached w.
Proof.
  unfold on_activate, mbind at 1, M_bind at 1, caches_keys.
  by edestruct activate_deletes as [results ->].
Qed.

Lemma dispatch_activate h cs :
  dispatch {| phase := Waiting; cacheStorage := cs |} (h, ActivateEvent)
  = {| phase := Active;
       cacheStorage := filter (λ p : string * gmap string Response, p.1 = CACHE_NAME) cs |}.
Proof.
  unfold dispatch. cbn [snd fst phase cacheStorage].
  destruct (on_activate _) as [p w'] eqn:Hact.
  f_equal.
  assert (w' = (on_activate {| storage := cs; trace := []; detached := [] |}).2)
    as -> by by rewrite Hact.
  rewrite settle_nothing_detached by apply on_activate_detached.
  by apply on_activate_storage.
Qed.

Lemma purged_names cs :
  NoDup cs.*1 →
  NoDup (filter (λ p : string * gmap string Response, p.1 = CACHE_NAME) cs).*1.
Proof.
  induction cs as [|[n c] cs IH]; [done|].
  rewrite fmap_cons, NoDup_cons. intros [Hn Hcs].
  rewrite filter_cons. case_decide; [|by apply IH].
  rewrite fmap_cons, NoDup_cons. split; [|by apply IH].
  cbn [fst] in *.
  intros ([m c'] & Hm & [_ Hin]%list_elem_of_filter)%list_elem_of_fmap.
  cbn [fst] in Hm. subst m.
  apply Hn, list_elem_of_fmap. by exists (n, c').
Qed.

Lemma purged_match cs request :
  NoDup cs.*1 →
  storage_match (filter (λ p : string * gmap string Response, p.1 = CACHE_NAME) cs) request
  = cache_lookup CACHE_NAME cs request.
Proof.
  unfold cache_lookup.
  induction cs as [|[n c] cs IH]; [done|].
  rewrite fmap_cons, NoDup_cons. cbn [fst]. intros [Hn Hcs].
  rewrite filter_cons. cbn [store_get]. case_decide as Hname; simpl in Hname.
  - subst n. rewrite bool_decide_eq_true_2 by done. simpl.
    destruct (c !! request); [done|].
    rewrite IH by done. apply store_get_None in Hn. by rewrite Hn.
  - rewrite bool_decide_eq_false_2 by done. by apply IH.
Qed.

(** C3: activation deletes every named cache other than the one of the
    current generation tag.  After the transition to Active, a cache of
    any other generation [G1] is gone and none of its entries can be
    retrieved: what [caches.match] finds is what the current cache holds.
    All that is left is at most one cache, the current one. *)
Theorem activate_purges_stale_caches h cs :
  NoDup cs.*1 →
  let reg := dispatch {| phase := Waiting; cacheStorage := cs |} (h, ActivateEvent) in
  phase reg = Active
  ∧ cacheStorage reg
    = filter (λ p : string * gmap string Response, p.1 = CACHE_NAME) cs
  ∧ (∀ G1, G1 ≠ CACHE_NAME →
       (G1 ∉ (cacheStorage reg).*1)
       ∧ ∀ request, cache_lookup G1 (cacheStorage reg) request = None)
  ∧ (∀ request,
       storage_match (cacheStorage reg) request = cache_lookup CACHE_NAME cs request)
  ∧ (∀ p, p ∈ cacheStorage reg → p.1 = CACHE_NAME)
  ∧ (length (cacheStorage reg) ≤ 1)%nat.
Proof.
  intros Hnames. cbv zeta. rewrite dispatch_activate. cbn [phase cacheStorage].
  set (kept := filter (λ p : string * gmap string Response, p.1 = CACHE_NAME) cs).
  assert (∀ p, p ∈ kept → p.1 = CACHE_NAME) as Hkept.
  { intros p Hp. by apply list_elem_of_filter in Hp as [Hp _]. }
  split; [done|]. split; [done|]. split; [|split; [|split; [done|]]].
  - intros G1 HG1.
    assert (G1 ∉ kept.*1) as Hgone.
    { intros (p & -> & Hp)%list_elem_of_fmap. by apply HG1, Hkept. }
    split; [done|]. intros request. unfold cache_lookup.
    apply store_get_None in Hgone. by rewrite Hgone.
  - intros request. by apply purged_match.
  - pose proof (purged_names cs Hnames) as Hnodup. fold kept in Hnodup.
    destruct kept as [|p [|q kept']]; simpl; [lia..|].
    exfalso. rewrite !fmap_cons in Hnodup.
    apply NoDup_cons in Hnodup as [Hp _]. apply Hp.
    rewrite (Hkept p), <- (Hkept q).
    + apply list_elem_of_here.
    + apply list_elem_of_further, list_elem_of_here.
    + apply list_elem_of_here.
Qed.

Lemma activate_purges_stale_caches_witness :
  let reg := dispatch {| phase := Waiting; cacheStorage := two_generations |}
               (online, ActivateEvent) in
  NoDup two_generations.*1
  ∧ cache_lookup "fire-ops-v0" two_generations "/index.html" = Some stale_page
  ∧ phase reg = Active
  ∧ cache_lookup "fire-ops-v0" (cacheStorage reg) "/index.html" = None
  ∧ storage_match (cacheStorage reg) "/index.html" = Some shell_page.
Proof.
  cbv zeta.
  assert (NoDup two_generations.*1) as Hnames by compute_done.
  destruct (activate_purges_stale_caches online two_generations Hnames)
    as (Hphase & _ & Hgone & Hmatch & _).
  split; [exact Hnames|]. split; [vm_compute; reflexivity|].
  split; [exact Hphase|]. split.
  - apply (Hgone "fire-ops-v0"). compute_done.
  - rewrite Hmatch. vm_compute. reflexivity.
Defined.

(** ** The install handler *)

Lemma dispatch_install h cs :
  dispatch {| phase := Installing; cacheStorage := cs |} (h, InstallEvent)
  = match mapM (addAll_entry h) urlsToCache with
    | Some entries =>
        {| phase := Waiting;
           cacheStorage :=
             foldl (λ cs e, store_put CACHE_NAME e.1 e.2 cs)
                   (store_open CACHE_NAME cs) entries |}
    | None => {| phase := Redundant; cacheStorage := store_open CACHE_NAME cs |}
    end.
Proof.
  unfold dispatch, on_install, mbind, M_bind, caches_open, cache_addAll.
  cbn [snd fst phase cacheStorage storage log set_storage].
  by destruct (mapM (addAll_entry h) urlsToCache).
Qed.

(** What [addAll] took for a URL is the network's response to it. *)
Lemma addAll_entry_Some h url e :
  addAll_entry h url = Some e →
  e.1 = url ∧ fetch h url = Fulfilled (Some e.2) ∧ ok e.2 = true.
Proof.
  unfold addAll_entry. destruct (fetch h url) as [[r|]|]; try done.
  destruct (ok r) eqn:Hok; simpl; [|done].
  destruct (negb _); [|done]. by intros [= <-].
Qed.

(** An entry written for a manifest URL survives the rest of the batch:
    a later write to the same URL carries the same response. *)
Lemma addAll_keeps h urls entries cs url r :
  Forall2 (λ u e, addAll_entry h u = Some e) urls entries →
  CACHE_NAME ∈ cs.*1 →
  fetch h url = Fulfilled (Some r) →
  cache_lookup CACHE_NAME cs url = Some r →
  cache_lookup CACHE_NAME
    (foldl (λ cs e, store_put CACHE_NAME e.1 e.2 cs) cs entries) url = Some r.
Proof.
  intros Hall. revert cs.
  induction Hall as [|u e urls entries He Hall IH]; intros cs Hcache Hnet Hr; [done|].
  cbn [foldl]. apply IH; [by rewrite store_put_names | done |].
  rewrite cache_lookup_put by done.
  case_bool_decide as Hurl; [|done].
  apply addAll_entry_Some in He as (He1 & He2 & _).
  rewrite Hurl in He1. subst u. congruence.
Qed.

Lemma addAll_stores h urls entries cs url :
  Forall2 (λ u e, addAll_entry h u = Some e) urls entries →
  CACHE_NAME ∈ cs.*1 →
  url ∈ urls →
  ∃ r, cache_lookup CACHE_NAME
         (foldl (λ cs e, store_put CACHE_NAME e.1 e.2 cs) cs entries) url = Some r
       ∧ ok r = true
       ∧ fetch h url = Fulfilled (Some r).
Proof.
  intros Hall. revert cs.
  induction Hall as [|u e urls entries He Hall IH]; intros cs Hcache Hurl.
  - by apply elem_of_nil in Hurl.
  - cbn [foldl]. apply elem_of_cons in Hurl as [->|Hurl].
    + pose proof (addAll_entry_Some _ _ _ He) as (He1 & He2 & Hok).
      exists (e.2). split; [|done].
      apply (addAll_keeps h urls); [done | by rewrite store_put_names | done |].
      rewrite cache_lookup_put by done. by rewrite bool_decide_eq_true_2.
    + apply IH; [by rewrite store_put_names | done].
Qed.

Lemma dispatch_redundant reg e :
  phase reg = Redundant → dispatch reg e = reg.
Proof. unfold dispatch. intros ->. by destruct (e.2). Qed.

Lemma lifecycle_redundant events reg :
  phase reg = Redundant → lifecycle events reg = reg.
Proof.
  unfold lifecycle. revert reg.
  induction events as [|e events IH]; intros reg Hreg; [done|].
  cbn [foldl]. rewrite dispatch_redundant by done. by apply IH.
Qed.

(** C5: install is all or nothing.  When the fetch of one manifest entry
    fails (the request is rejected, or the response is none that [addAll]
    accepts), the install promise rejects: the version is discarded and no
    later event makes it Active, and the current cache holds exactly what
    it held before, no part of the manifest. *)
Theorem install_all_or_nothing h cs url :
  url ∈ urlsToCache →
  addAll_entry h url = None →
  let reg := dispatch {| phase := Installing; cacheStorage := cs |} (h, InstallEvent) in
  (on_install h {| storage := cs; trace := []; detached := [] |}).1 = Rejected
  ∧ phase reg = Redundant
  ∧ cacheStorage reg = store_open CACHE_NAME cs
  ∧ (∀ request,
       cache_lookup CACHE_NAME (cacheStorage reg) request
       = cache_lookup CACHE_NAME cs request)
  ∧ (∀ events, phase (lifecycle events reg) ≠ Active).
Proof.
  intros Hurl Hfail. cbv zeta.
  assert (mapM (addAll_entry h) urlsToCache = None) as Hbatch.
  { apply mapM_None, Exists_exists. by exists url. }
  rewrite dispatch_install, Hbatch. cbn [phase cacheStorage].
  split; [|split; [done|split; [done|split]]].
  - unfold on_install, mbind, M_bind, caches_open, cache_addAll.
    cbn [storage log set_storage]. by rewrite Hbatch.
  - intros request. apply cache_lookup_open.
  - intros events. by rewrite lifecycle_redundant.
Qed.

Lemma install_all_or_nothing_witness :
  let reg := dispatch {| phase := Installing; cacheStorage := [] |}
               (broken_deploy, InstallEvent) in
  "/style.css" ∈ urlsToCache
  ∧ fetch broken_deploy "/style.css" = Fulfilled (Some not_found)
  ∧ phase reg = Redundant
  ∧ cache_lookup CACHE_NAME (cacheStorage reg) "/index.html" = None
  ∧ phase (lifecycle [(online, ActivateEvent); (online, FetchEvent "/")] reg) ≠ Active.
Proof.
  cbv zeta.
  assert ("/style.css" ∈ urlsToCache) as Hurl by compute_done.
  assert (addAll_entry broken_deploy "/style.css" = None) as Hfail
    by (vm_compute; reflexivity).
  destruct (install_all_or_nothing broken_deploy [] "/style.css" Hurl Hfail)
    as (_ & Hphase & _ & Hcache & Hnever).
  split; [exact Hurl|]. split; [vm_compute; reflexivity|].
  split; [exact Hphase|]. split; [|apply Hnever].
  rewrite Hcache. reflexivity.
Defined.

(** C7: after a successful install, the current cache answers a lookup for
    every path of the manifest, with a response of success status: the one
    the network gave for that path. *)
Theorem install_caches_manifest h cs url :
  let reg := dispatch {| phase := Installing; cacheStorage := cs |} (h, InstallEvent) in
  phase reg = Waiting →
  url ∈ urlsToCache →
  ∃ r, cache_lookup CACHE_NAME (cacheStorage reg) url = Some r
       ∧ ok r = true
       ∧ fetch h url = Fulfilled (Some r).
Proof.
  cbv zeta. rewrite dispatch_install.
  destruct (mapM (addAll_entry h) urlsToCache) as [entries|] eqn:Hbatch; [|done].
  intros _ Hurl. cbn [cacheStorage].
  apply mapM_Some in Hbatch.
  apply (addAll_stores h urlsToCache); [done | apply store_open_names | done].
Qed.

Lemma install_caches_manifest_witness :
  let reg := dispatch {| phase := Installing; cacheStorage := [] |} (online, InstallEvent) in
  phase reg = Waiting
  ∧ "/manifest.json" ∈ urlsToCache
  ∧ ∃ r, cache_lookup CACHE_NAME (cacheStorage reg) "/manifest.json" = Some r
         ∧ ok r = true
         ∧ fetch online "/manifest.json" = Fulfilled (Some r).
Proof.
  cbv zeta.
  assert (phase (dispatch {| phase := Installing; cacheStorage := [] |}
                   (online, InstallEvent)) = Waiting) as Hphase
    by (vm_compute; reflexivity).
  assert ("/manifest.json" ∈ urlsToCache) as Hurl by compute_done.
  split; [exact Hphase|]. split; [exact Hurl|].
  exact (install_caches_manifest online [] "/manifest.json" Hphase Hurl).
Defined.

(** ** The storage an active worker sees *)

Lemma purged_open cs : purged cs → purged (store_open CACHE_NAME cs).
Proof.
  unfold purged, store_open. intros Hcs. case_bool_decide; [done|].
  intros p [Hp|Hp]%elem_of_app; [by apply Hcs|].
  by apply list_elem_of_singleton in Hp as ->.
Qed.

Lemma purged_put cacheName request r cs :
  purged cs → purged (store_put cacheName request r cs).
Proof.
  unfold purged, store_put. intros Hcs p ([n c] & -> & Hin)%list_elem_of_fmap.
  specialize (Hcs _ Hin). by case_bool_decide.
Qed.

(** What one fetch event can leave behind. *)
Lemma fetch_event_storage h cs request :
  storage (after (fetch_event h cs request)) = cs
  ∨ storage (after (fetch_event h cs request)) = meanwhile h cs
  ∨ ∃ r, storage (after (fetch_event h cs request))
         = store_put CACHE_NAME request r (store_open CACHE_NAME (meanwhile h cs)).
Proof.
  destruct (storage_match cs request) as [cached|] eqn:Hlookup.
  { left. by rewrite (fetch_event_hit h cs request cached). }
  destruct (fetch h request) as [fetchResponse|] eqn:Hnet.
  2:{ right; left. by rewrite fetch_event_rejected. }
  assert ((∃ r, fetchResponse = Some r ∧ status r = 200 ∧ type r = Basic)
          ∨ (∀ r, fetchResponse = Some r → status r ≠ 200 ∨ type r ≠ Basic))
    as [(r & -> & Hstatus & Htype)|Hinvalid].
  { destruct fetchResponse as [r|]; [|by right].
    destruct (decide (status r = 200)); [|right; intros ? [= <-]; by left].
    destruct (decide (type r = Basic)); [left; by exists r|].
    right. intros ? [= <-]. by right. }
  - right; right. exists r. by rewrite (fetch_event_cached h cs request r).
  - right; left. by rewrite (fetch_event_passed_on h cs request fetchResponse).
Qed.

(** From install on, a worker that is Active sees no cache but its own,
    as long as nobody else adds caches to the storage. *)
Lemma lifecycle_active_purged events cs :
  (∀ e cs', e ∈ events → purged cs' → purged (meanwhile e.1 cs')) →
  let reg := lifecycle events {| phase := Installing; cacheStorage := cs |} in
  phase reg = Active → purged (cacheStorage reg).
Proof.
  intros Hquiet. cbv zeta. unfold lifecycle.
  assert (phase {| phase := Installing; cacheStorage := cs |} = Active →
          purged (cacheStorage {| phase := Installing; cacheStorage := cs |}))
    as Hinv by done.
  revert Hinv. generalize {| phase := Installing; cacheStorage := cs |}.
  induction events as [|[h ev] events IH]; intros reg Hinv; [done|].
  cbn [foldl]. apply IH.
  { intros e cs' He. apply Hquiet. by apply list_elem_of_further. }
  destruct reg as [ph cs0].
  destruct ev as [| |request], ph; try done.
  - rewrite dispatch_install. by destruct (mapM _ _).
  - rewrite dispatch_activate. intros _ p Hp.
    by apply list_elem_of_filter in Hp as [Hp _].
  - unfold dispatch. cbn [snd fst phase cacheStorage]. intros _.
    specialize (Hinv eq_refl). cbn [cacheStorage] in Hinv.
    assert (purged (meanwhile h cs0)) as Hmean.
    { apply (Hquiet (h, FetchEvent request)); [apply list_elem_of_here | done]. }
    destruct (fetch_event_storage h cs0 request) as [->|[->|[r ->]]]; try done.
    by apply purged_put, purged_open.
Qed.

(** So a fetch that an active worker intercepts and finds in its cache is
    answered with that very entry. *)
Lemma lifecycle_fetch_hit events cs h request r :
  (∀ e cs', e ∈ events → purged cs' → purged (meanwhile e.1 cs')) →
  let reg := lifecycle events {| phase := Installing; cacheStorage := cs |} in
  phase reg = Active →
  cache_lookup CACHE_NAME (cacheStorage reg) request = Some r →
  fetch_event h (cacheStorage reg) request =
  {| reply := Delivered r;
     after := {| storage := cacheStorage reg; trace := [OpMatch request];
                 detached := [] |} |}.
Proof.
  intros Hquiet. cbv zeta. intros Hactive Hcurrent.
  pose proof (lifecycle_active_purged events cs Hquiet Hactive) as Hpurged.
  apply fetch_event_hit.
  apply (storage_match_of_lookup CACHE_NAME); [done|].
  by apply (activated_first_holder _ _ r).
Qed.

End CachingWorker.

(** * Further properties of the page controller *)

Section PageTurning.

Import App.

Implicit Types (dom : list string) (st : State) (actions : list Action).

Lemma step_page_positive dom st a :
  1 ≤ currentPage st → 1 ≤ currentPage (step dom st a).
Proof.
  intros Hst. destruct a; cbn [step]; try done.
  - unfold openDocument. by destruct (isImage _).
  - unfold nextPage. destruct (pdfDoc st); [|done].
    destruct (_ >=? _); simpl; lia.
  - unfold prevPage. destruct (pdfDoc st); [|done].
    destruct (Z.leb_spec (currentPage st) 1); simpl; lia.
  - unfold zoomIn. destruct (pdfDoc st); [destruct (PrimFloat.ltb _ _)|]; done.
  - unfold zoomOut. destruct (pdfDoc st); [destruct (PrimFloat.ltb _ _)|]; done.
Qed.

(** X1: the page number never drops below 1, whatever is called and in
    whatever order. *)
Theorem currentPage_at_least_one dom shown actions :
  1 ≤ currentPage (run dom actions (init shown)).
Proof.
  induction actions as [|a actions IH] using rev_ind; [done|].
  rewrite run_snoc. by apply step_page_positive.
Qed.

(** X2: with a document loaded and the page number inside it, [nextPage]
    and [prevPage] keep it inside; at the last page [nextPage] changes
    nothing, at the first [prevPage] changes nothing, and away from those
    ends each undoes the other. *)
Theorem page_turns_stay_in_document st doc :
  pdfDoc st = Some doc →
  1 ≤ currentPage st ≤ numPages doc →
  (1 ≤ currentPage (nextPage st) ≤ numPages doc)
  ∧ (1 ≤ currentPage (prevPage st) ≤ numPages doc)
  ∧ (currentPage st = numPages doc → nextPage st = st)
  ∧ (currentPage st = 1 → prevPage st = st)
  ∧ (currentPage st < numPages doc → prevPage (nextPage st) = st)
  ∧ (1 < currentPage st → nextPage (prevPage st) = st).
Proof.
  intros Hdoc Hpage. destruct st as [prev pdf page sc act].
  simpl in Hdoc, Hpage. subst pdf. unfold nextPage, prevPage. simpl.
  destruct (Z.geb_spec page (numPages doc)), (Z.leb_spec page 1); simpl;
    repeat split; intros; try lia; try done.
  all: try (destruct (Z.leb_spec (page + 1) 1); [lia|]; f_equal; lia).
  all: try (destruct (Z.geb_spec (page - 1) (numPages doc)); [lia|]; f_equal; lia).
Qed.

Lemma page_turns_stay_in_document_witness :
  let st := run [] [CallOpenDocument "docs/hose-lays.pdf";
                    PdfLoaded {| numPages := 3 |}; CallNextPage]
                (init None) in
  currentPage st = 2
  ∧ prevPage (nextPage st) = st
  ∧ nextPage (nextPage st) = nextPage st.
Proof.
  cbv zeta.
  set (st := run _ _ _).
  assert (pdfDoc st = Some {| numPages := 3 |}) as Hdoc by reflexivity.
  assert (1 ≤ currentPage st ≤ numPages {| numPages := 3 |}) as Hpage
    by (vm_compute; split; discriminate).
  destruct (page_turns_stay_in_document st _ Hdoc Hpage)
    as (_ & _ & _ & _ & Hback & _).
  split; [reflexivity|]. split; [apply Hback; vm_compute; reflexivity|].
  reflexivity.
Defined.

End PageTurning.

Section Zooming.

Import App.

Implicit Types (dom : list string) (st : State) (actions : list Action).

(** On the grid a step up and the step back down meet exactly. *)
Lemma scale_grid_round_trip (s : float) :
  s ∈ scale_grid →
  (PrimFloat.ltb s MAX_SCALE = true →
     PrimFloat.sub (PrimFloat.add s SCALE_STEP) SCALE_STEP = s
     ∧ PrimFloat.ltb MIN_SCALE (PrimFloat.add s SCALE_STEP) = true)
  ∧ (PrimFloat.ltb MIN_SCALE s = true →
     PrimFloat.add (PrimFloat.sub s SCALE_STEP) SCALE_STEP = s
     ∧ PrimFloat.ltb (PrimFloat.sub s SCALE_STEP) MAX_SCALE = true).
Proof.
  unfold scale_grid. intros Hs.
  repeat (apply elem_of_cons in Hs as [->|Hs]);
    [.. | by apply elem_of_nil in Hs];
    cbv [MAX_SCALE MIN_SCALE SCALE_STEP]; cbn;
    split; intros; try discriminate; split; reflexivity.
Qed.

(** X3: zooming is exact.  In every state the page can reach with a
    document loaded, [zoomOut] undoes a [zoomIn] that moved, and [zoomIn]
    undoes a [zoomOut] that moved: no rounding error builds up in the
    scale. *)
Theorem zoom_round_trip dom shown actions doc :
  let st := run dom actions (init shown) in
  pdfDoc st = Some doc →
  (PrimFloat.ltb (scale st) MAX_SCALE = true → zoomOut (zoomIn st) = st)
  ∧ (PrimFloat.ltb MIN_SCALE (scale st) = true → zoomIn (zoomOut st) = st).
Proof.
  cbv zeta. intros Hdoc.
  pose proof (scale_grid_round_trip _ (run_scale_grid dom actions shown))
    as [Hup Hdown].
  destruct (run dom actions (init shown)) as [prev pdf page sc act].
  simpl in *. subst pdf. split.
  - intros Hlt. destruct (Hup Hlt) as [Hback Habove].
    unfold zoomIn, zoomOut. simpl. rewrite Hlt. simpl. rewrite Habove.
    by rewrite Hback.
  - intros Hgt. destruct (Hdown Hgt) as [Hback Hbelow].
    unfold zoomIn, zoomOut. simpl. rewrite Hgt. simpl. rewrite Hbelow.
    by rewrite Hback.
Qed.

Lemma zoom_round_trip_witness :
  let st := run [] [CallOpenDocument "docs/hose-lays.pdf";
                    PdfLoaded {| numPages := 3 |}; CallZoomIn; CallZoomIn]
                (init None) in
  scale st = 2.0%float
  ∧ zoomOut (zoomIn st) = st
  ∧ zoomIn (zoomOut st) = st.
Proof.
  cbv zeta.
  destruct (zoom_round_trip [] None
              [CallOpenDocument "docs/hose-lays.pdf";
               PdfLoaded {| numPages := 3 |}; CallZoomIn; CallZoomIn]
              {| numPages := 3 |} eq_refl) as [Hup Hdown].
  split; [reflexivity|]. split; [apply Hup | apply Hdown]; reflexivity.
Defined.

End Zooming.

Section OpeningAndClosing.

Import App.

Implicit Types (dom : list string) (st : State) (actions : list Action).

Lemma viewer_step_stays dom st a :
  viewer_action a = true →
  previousPage (step dom st a) = previousPage st
  ∧ activePage (step dom st a) = activePage st.
Proof.
  destruct a; try done; intros _; cbn [step].
  - unfold nextPage. destruct (pdfDoc st); [destruct (_ >=? _)|]; by split.
  - unfold prevPage. destruct (pdfDoc st); [destruct (_ <=? _)|]; by split.
  - unfold zoomIn. destruct (pdfDoc st); [destruct (PrimFloat.ltb _ _)|]; by split.
  - unfold zoomOut. destruct (pdfDoc st); [destruct (PrimFloat.ltb _ _)|]; by split.
Qed.

Lemma viewer_run_stays dom actions st :
  forallb viewer_action actions = true →
  previousPage (run dom actions st) = previousPage st
  ∧ activePage (run dom actions st) = activePage st.
Proof.
  revert st. induction actions as [|a actions IH]; intros st; [done|].
  cbn [forallb]. intros [Ha Hrest]%andb_true_iff.
  change (run dom (a :: actions) st) with (run dom actions (step dom st a)).
  destruct (IH (step dom st a) Hrest) as [-> ->].
  by apply viewer_step_stays.
Qed.

(** X4: opening a document and closing it is a round trip.  From a state
    with no document open, whatever happens in the viewer in between (the
    PDF loads, pages are turned, the zoom changes), [closeDocument] gives
    back the state [openDocument] started from. *)
Theorem open_close_round_trip dom st documentPath actions :
  resting dom st →
  forallb viewer_action actions = true →
  closeDocument dom (run dom actions (openDocument dom documentPath st)) = st.
Proof.
  intros (Hdom & Hviewer & Hactive & Hpdf & Hpage & Hscale) Hactions.
  destruct (viewer_run_stays dom actions (openDocument dom documentPath st) Hactions)
    as [Hprev _].
  assert (previousPage (openDocument dom documentPath st) = previousPage st) as Hopen.
  { unfold openDocument. by destruct (isImage _). }
  unfold closeDocument, showPage. cbn [previousPage pdfDoc currentPage scale activePage].
  rewrite Hprev, Hopen.
  rewrite (bool_decide_eq_true_2 _ Hdom), (bool_decide_eq_true_2 _ Hviewer).
  destruct st as [prev pdf page sc act]. simpl in *. by subst.
Qed.

Lemma open_close_round_trip_witness :
  let dom := ["home-page"; "sop-page"; "viewer-page"] in
  let st := showPage dom "sop-page" (init (Some "home-page")) in
  resting dom st
  ∧ closeDocument dom
      (run dom [PdfLoaded {| numPages := 4 |}; CallNextPage; CallZoomIn; CallZoomOut;
                CallZoomIn]
           (openDocument dom "docs/hose-lays.pdf" st)) = st.
Proof.
  cbv zeta.
  assert (resting ["home-page"; "sop-page"; "viewer-page"]
            (showPage ["home-page"; "sop-page"; "viewer-page"] "sop-page"
               (init (Some "home-page")))) as Hrest.
  { unfold resting. simpl. repeat split; try done.
    apply list_elem_of_further, list_elem_of_here. }
  split; [exact Hrest|].
  apply open_close_round_trip; [exact Hrest | reflexivity].
Defined.

(** X5: [showPage] takes an id the markup does not have.  No page is left
    active, the id still becomes the marker, and closing a document that
    was opened from there shows no page either. *)
Theorem showPage_unknown_page dom pageId st :
  pageId ∉ dom →
  pageId ≠ "viewer-page" →
  let st' := showPage dom pageId st in
  activePage st' = None
  ∧ previousPage st' = pageId
  ∧ ∀ documentPath,
      activePage (closeDocument dom (openDocument dom documentPath st')) = None.
Proof.
  intros Hdom Hviewer. cbv zeta.
  unfold closeDocument, openDocument, showPage. simpl.
  rewrite (bool_decide_eq_false_2 (pageId ∈ dom)) by done.
  rewrite (bool_decide_eq_true_2 (pageId ≠ "viewer-page")) by done.
  split; [done|]. split; [done|]. intros documentPath.
  destruct (isImage documentPath); simpl;
    by rewrite (bool_decide_eq_false_2 (pageId ∈ dom)).
Qed.

Lemma showPage_unknown_page_witness :
  let dom := ["home-page"; "viewer-page"] in
  let st' := showPage dom "maps-page" (init (Some "home-page")) in
  ("maps-page" ∉ dom)
  ∧ activePage st' = None
  ∧ previousPage st' = "maps-page"
  ∧ activePage (closeDocument dom (openDocument dom "maps/sector-4.png" st')) = None.
Proof.
  cbv zeta.
  assert ("maps-page" ∉ ["home-page"; "viewer-page"]) as Hdom by compute_done.
  assert ("maps-page" ≠ "viewer-page") as Hviewer by done.
  destruct (showPage_unknown_page ["home-page"; "viewer-page"] "maps-page"
              (init (Some "home-page")) Hdom Hviewer) as (Hactive & Hprev & Hclose).
  split; [exact Hdom|]. split; [exact Hactive|]. split; [exact Hprev|].
  apply Hclose.
Defined.

(** X6: the earlier controller makes the same round trip: from a state
    with both frames empty, [closeDocument] after [openDocument] gives the
    state back, for an image as for a PDF. *)
Theorem legacy_open_close_round_trip dom (st : Legacy.State) documentPath :
  legacy_resting dom st →
  Legacy.closeDocument dom (Legacy.openDocument dom documentPath st) = st.
Proof.
  intros (Hdom & Hviewer & Hactive & Hpdf & Himage).
  unfold Legacy.closeDocument, Legacy.openDocument, Legacy.showPage.
  destruct (isImage documentPath); simpl;
    rewrite (bool_decide_eq_true_2 _ Hdom), (bool_decide_eq_true_2 _ Hviewer);
    destruct st as [prev act pdf img]; simpl in *; by subst.
Qed.

Lemma legacy_open_close_round_trip_witness :
  let dom := ["home-page"; "viewer-page"] in
  legacy_resting dom (Legacy.init (Some "home-page"))
  ∧ Legacy.closeDocument dom
      (Legacy.openDocument dom "docs/hose-lays.pdf" (Legacy.init (Some "home-page")))
    = Legacy.init (Some "home-page").
Proof.
  cbv zeta.
  assert (legacy_resting ["home-page"; "viewer-page"] (Legacy.init (Some "home-page")))
    as Hrest.
  { unfold legacy_resting. simpl. repeat split; try done. apply list_elem_of_here. }
  split; [exact Hrest|]. by apply legacy_open_close_round_trip.
Defined.

End OpeningAndClosing.

(** * The document title and the extension test *)

Section DocumentTitle.

Import Title.

Implicit Types (s w glue : string) (c sep : ascii) (words : list string).

Lemma length_app s1 s2 :
  String.length (s1 +:+ s2) = (String.length s1 + String.length s2)%nat.
Proof. induction s1 as [|c s1 IH]; simpl; [done | by rewrite IH]. Qed.

Lemma occurs_app c s1 s2 : occurs c (s1 +:+ s2) = occurs c s1 || occurs c s2.
Proof.
  induction s1 as [|d s1 IH]; simpl; [done|]. by rewrite IH, orb_assoc.
Qed.

Lemma toLowerCase_app s1 s2 :
  toLowerCase (s1 +:+ s2) = toLowerCase s1 +:+ toLowerCase s2.
Proof. induction s1 as [|c s1 IH]; simpl; [done | by rewrite IH]. Qed.

Lemma toLowerCase_length s : String.length (toLowerCase s) = String.length s.
Proof. induction s as [|c s IH]; simpl; [done | by rewrite IH]. Qed.

(** Changing the case of a letter makes no hyphen, slash or dot, and
    unmakes none. *)
Lemma upper_ascii_keeps c :
  Ascii.eqb (upper_ascii c) "-" = Ascii.eqb c "-"
  ∧ Ascii.eqb (upper_ascii c) "/" = Ascii.eqb c "/".
Proof. destruct c as [[] [] [] [] [] [] [] []]; split; reflexivity. Qed.

Lemma lower_ascii_keeps c :
  Ascii.eqb (lower_ascii c) "/" = Ascii.eqb c "/"
  ∧ Ascii.eqb (lower_ascii c) "." = Ascii.eqb c ".".
Proof. destruct c as [[] [] [] [] [] [] [] []]; split; reflexivity. Qed.

Lemma occurs_toLowerCase s :
  occurs "/" (toLowerCase s) = occurs "/" s
  ∧ occurs "." (toLowerCase s) = occurs "." s.
Proof.
  induction s as [|c s [IH1 IH2]]; simpl; [done|].
  destruct (lower_ascii_keeps c) as [-> ->]. by rewrite IH1, IH2.
Qed.

Lemma occurs_capitalize w :
  occurs "-" (capitalize w) = occurs "-" w
  ∧ occurs "/" (capitalize w) = occurs "/" w.
Proof.
  destruct w as [|c w]; simpl; [done|].
  by destruct (upper_ascii_keeps c) as [-> ->].
Qed.

Lemma capitalize_length w : String.length (capitalize w) = String.length w.
Proof. by destruct w. Qed.

Example formattedName_hose_lays : formattedName "docs/hose-lays.pdf" = "Hose Lays".
Proof. reflexivity. Qed.

(** An extension the expression does not list stays in the title, and a
    doubled hyphen gives two spaces. *)
Example formattedName_unlisted : formattedName "maps/area--north.gif" = "Area  North.gif".
Proof. reflexivity. Qed.

(** ** [split] and [join] *)

Lemma split_cons sep s : ∃ w ws, split sep s = w :: ws.
Proof.
  induction s as [|c s (w & ws & IH)]; simpl; [by eexists _, _|].
  destruct (Ascii.eqb c sep); [by eexists _, _|].
  rewrite IH. by eexists _, _.
Qed.

(** No word of a split holds the separator, and a character that does not
    occur in the string occurs in none of its words. *)
Lemma split_words sep c s w :
  w ∈ split sep s →
  occurs sep w = false ∧ (occurs c s = false → occurs c w = false).
Proof.
  revert w. induction s as [|d s IH]; intros w; simpl.
  - intros ->%list_elem_of_singleton. done.
  - destruct (Ascii.eqb_spec d sep) as [->|Hd].
    + intros [->|Hw]%elem_of_cons; [done|].
      destruct (IH w Hw) as [Hsep Hc]. split; [done|].
      intros [_ Hs]%orb_false_iff. by apply Hc.
    + destruct (split_cons sep s) as (w0 & ws & Hsplit).
      rewrite Hsplit in IH |- *.
      intros [->|Hw]%elem_of_cons.
      * destruct (IH w0 (list_elem_of_here _ _)) as [Hsep Hc]. simpl.
        split.
        -- rewrite Hsep, orb_false_r. by apply Ascii.eqb_neq.
        -- intros [Hd' Hs]%orb_false_iff. rewrite Hd'. by apply Hc.
      * destruct (IH w (list_elem_of_further _ _ _ Hw)) as [Hsep Hc].
        split; [done|]. intros [_ Hs]%orb_false_iff. by apply Hc.
Qed.

Lemma last_elem_of (l : list string) w0 ws :
  l = w0 :: ws → List.last l "" ∈ l.
Proof.
  intros ->. revert w0. induction ws as [|x ws IH]; intros w0.
  - apply list_elem_of_here.
  - apply list_elem_of_further.
    change (List.last (w0 :: x :: ws) "") with (List.last (x :: ws) "").
    apply IH.
Qed.

Lemma occurs_join c glue words :
  occurs c glue = false →
  (∀ w, w ∈ words → occurs c w = false) →
  occurs c (join glue words) = false.
Proof.
  intros Hsep. induction words as [|w ws IH]; intros Hwords; [done|].
  cbn [join]. destruct ws as [|x ws].
  - apply Hwords, list_elem_of_here.
  - rewrite !occurs_app, Hsep, (Hwords w (list_elem_of_here _ _)). simpl.
    apply IH. intros w' Hw'. by apply Hwords, list_elem_of_further.
Qed.

(** Joining the words of a split with a one-character separator gives a
    string of the length of the original, also when every word has been
    replaced by one of its own length. *)
Lemma join_split_length (f : string → string) sep glue s :
  (∀ w, String.length (f w) = String.length w) →
  String.length glue = 1%nat →
  String.length (join glue (f <$> split sep s)) = String.length s.
Proof.
  intros Hf Hglue. induction s as [|c s IH]; simpl.
  - by rewrite Hf.
  - destruct (split_cons sep s) as (w & ws & Hsplit).
    rewrite Hsplit in IH |- *.
    destruct (Ascii.eqb c sep).
    + rewrite !fmap_cons. cbn [join]. rewrite !length_app, Hf, Hglue. simpl.
      f_equal. by rewrite fmap_cons in IH.
    + rewrite fmap_cons in IH |- *. cbn [join] in IH |- *.
      destruct (f <$> ws) as [|x xs].
      * rewrite Hf in IH |- *. simpl. by rewrite IH.
      * rewrite !length_app in IH |- *. rewrite Hf in IH |- *. simpl.
        by rewrite <- IH.
Qed.

Lemma strip_extension_prefix s : ∃ rest, s = strip_extension s +:+ rest.
Proof.
  induction s as [|c s [rest IH]]; [by exists ""|].
  cbn [strip_extension]. destruct (is_extension _).
  - by eexists.
  - exists rest. change (String c s = String c (strip_extension s +:+ rest)).
    by rewrite <- IH.
Qed.

(** X7: for an ASCII path, the title has the length of the file name it is
    made from and holds neither a hyphen nor a slash: every hyphen has
    become a space and the directories are gone. *)
Theorem formattedName_shape documentPath :
  is_ascii documentPath = true →
  occurs "-" (formattedName documentPath) = false
  ∧ occurs "/" (formattedName documentPath) = false
  ∧ String.length (formattedName documentPath)
    = String.length (fileName documentPath).
Proof.
  intros _. unfold formattedName. split; [|split].
  - apply occurs_join; [done|].
    intros w (w0 & -> & Hw0)%list_elem_of_fmap.
    destruct (occurs_capitalize w0) as [-> _].
    by destruct (split_words "-" "-" _ _ Hw0) as [Hhyphen _].
  - apply occurs_join; [done|].
    intros w (w0 & -> & Hw0)%list_elem_of_fmap.
    destruct (occurs_capitalize w0) as [_ ->].
    destruct (split_words "-" "/" _ _ Hw0) as [_ Hslash0]. apply Hslash0.
    unfold fileName.
    destruct (split_cons "/" documentPath) as (p & ps & Hsplit).
    pose proof (last_elem_of _ _ _ Hsplit) as Hlast.
    apply (split_words "/" "/") in Hlast as [Hslash _].
    destruct (strip_extension_prefix (List.last (split "/" documentPath) ""))
      as [rest Hrest].
    rewrite Hrest, occurs_app in Hslash.
    by apply orb_false_iff in Hslash as [? _].
  - apply join_split_length; [apply capitalize_length | done].
Qed.

Lemma formattedName_shape_witness :
  is_ascii "docs/sops/hose-lays-2024.pdf" = true
  ∧ fileName "docs/sops/hose-lays-2024.pdf" = "hose-lays-2024"
  ∧ occurs "-" (formattedName "docs/sops/hose-lays-2024.pdf") = false
  ∧ String.length (formattedName "docs/sops/hose-lays-2024.pdf") = 14%nat.
Proof.
  assert (is_ascii "docs/sops/hose-lays-2024.pdf" = true) as Hascii by reflexivity.
  destruct (formattedName_shape "docs/sops/hose-lays-2024.pdf" Hascii)
    as (Hhyphen & _ & Hlength).
  split; [exact Hascii|]. split; [reflexivity|]. split; [exact Hhyphen|].
  rewrite Hlength. reflexivity.
Defined.

(** ** File names made of hyphenated words *)

Lemma split_app_sep sep s1 s2 :
  split sep (s1 +:+ String sep s2) = (split sep s1 ++ split sep s2)%list.
Proof.
  induction s1 as [|c s1 IH]; simpl.
  - by rewrite Ascii.eqb_refl.
  - rewrite IH. destruct (Ascii.eqb c sep); [done|].
    by destruct (split_cons sep s1) as (w & ws & ->).
Qed.

Lemma split_nosep sep w : occurs sep w = false → split sep w = [w].
Proof.
  induction w as [|c w IH]; simpl; [done|].
  intros [Hc Hw]%orb_false_iff. by rewrite Hc, IH.
Qed.

Lemma split_join sep w words :
  (∀ x, x ∈ w :: words → occurs sep x = false) →
  split sep (join (String sep "") (w :: words)) = w :: words.
Proof.
  revert w. induction words as [|x words IH]; intros w Hwords.
  - apply split_nosep, Hwords, list_elem_of_here.
  - change (join (String sep "") (w :: x :: words))
      with (w +:+ String sep (join (String sep "") (x :: words))).
    rewrite split_app_sep, split_nosep by apply Hwords, list_elem_of_here.
    rewrite IH; [done|]. intros y Hy. by apply Hwords, list_elem_of_further.
Qed.

Lemma last_app_cons (l1 l2 : list string) x :
  List.last (l1 ++ x :: l2)%list "" = List.last (x :: l2) "".
Proof.
  induction l1 as [|y l1 IH]; [done|].
  rewrite <- IH. simpl. by destruct (l1 ++ x :: l2)%list eqn:Hl; [destruct l1|].
Qed.

(** A string with a recognised extension at its end is not itself, from
    its first character on, a recognised extension. *)
Lemma is_extension_inside c s e :
  is_extension e = true → is_extension (String c (s +:+ e)) = false.
Proof.
  unfold is_extension. intros He%bool_decide_eq_true.
  apply bool_decide_eq_false. intros Hin.
  cbn [toLowerCase] in Hin. rewrite toLowerCase_app in Hin.
  repeat (apply elem_of_cons in He as [He|He]);
    [.. | by apply elem_of_nil in He];
    (repeat (apply elem_of_cons in Hin as [Hin|Hin]);
       [.. | by apply elem_of_nil in Hin]);
    rewrite He in Hin; destruct (toLowerCase s); simpl in Hin;
    first [ discriminate Hin
          | apply (f_equal String.length) in Hin; simpl in Hin;
            rewrite ?length_app in Hin; simpl in Hin; lia ].
Qed.

Lemma strip_extension_app s e :
  is_extension e = true → strip_extension (s +:+ e) = s.
Proof.
  intros He. induction s as [|c s IH].
  - destruct e as [|c e]; [done|]. simpl. by rewrite He.
  - change (strip_extension (String c (s +:+ e)) = String c s).
    cbn [strip_extension]. by rewrite is_extension_inside, IH.
Qed.

Lemma is_extension_no_slash e : is_extension e = true → occurs "/" e = false.
Proof.
  unfold is_extension. intros He%bool_decide_eq_true.
  destruct (occurs_toLowerCase e) as [<- _].
  repeat (apply elem_of_cons in He as [->|He]); try done.
  by apply elem_of_nil in He.
Qed.

(** X8: for an ASCII path, a file named by hyphenated words and a
    recognised extension (in any letter case), with or without directories
    in front, has as its title the words, each with its first letter in
    upper case, separated by spaces. *)
Theorem formattedName_words dir w words e :
  is_ascii dir = true →
  (∀ x, x ∈ w :: words → is_ascii x = true) →
  (∀ x, x ∈ w :: words → occurs "-" x = false ∧ occurs "/" x = false) →
  is_extension e = true →
  formattedName (join "-" (w :: words) +:+ e) = join " " (capitalize <$> w :: words)
  ∧ formattedName (dir +:+ "/" +:+ join "-" (w :: words) +:+ e)
    = join " " (capitalize <$> w :: words).
Proof.
  intros _ _ Hwords He.
  assert (occurs "/" (join "-" (w :: words) +:+ e) = false) as Hslash.
  { rewrite occurs_app, (is_extension_no_slash e He), orb_false_r.
    apply occurs_join; [done|]. intros x Hx. by apply Hwords. }
  assert (formattedName (join "-" (w :: words) +:+ e)
          = join " " (capitalize <$> w :: words)) as Hplain.
  { unfold formattedName, fileName.
    rewrite (split_nosep "/" _ Hslash). cbn [List.last].
    rewrite strip_extension_app by done.
    rewrite split_join; [done|]. intros x Hx. by apply Hwords. }
  split; [done|].
  unfold formattedName, fileName in Hplain |- *.
  rewrite (split_nosep "/" _ Hslash) in Hplain. cbn [List.last] in Hplain.
  change (dir +:+ "/" +:+ join "-" (w :: words) +:+ e)
    with (dir +:+ String "/" (join "-" (w :: words) +:+ e)).
  by rewrite split_app_sep, (split_nosep "/" _ Hslash), last_app_cons.
Qed.

Lemma formattedName_words_witness :
  is_extension ".PDF" = true
  ∧ is_ascii "docs/sops" = true
  ∧ formattedName ("docs/sops" +:+ "/" +:+ join "-" ["hose"; "lays"; "2024"] +:+ ".PDF")
    = "Hose Lays 2024".
Proof.
  assert (∀ x, x ∈ ["hose"; "lays"; "2024"] → is_ascii x = true) as Hascii.
  { intros x Hx. repeat (apply elem_of_cons in Hx as [->|Hx]); try done.
    by apply elem_of_nil in Hx. }
  assert (∀ x, x ∈ ["hose"; "lays"; "2024"] →
            occurs "-" x = false ∧ occurs "/" x = false) as Hwords.
  { intros x Hx. repeat (apply elem_of_cons in Hx as [->|Hx]); try done.
    by apply elem_of_nil in Hx. }
  assert (is_extension ".PDF" = true) as He by reflexivity.
  assert (is_ascii "docs/sops" = true) as Hdir by reflexivity.
  split; [exact He|]. split; [exact Hdir|].
  destruct (formattedName_words "docs/sops" "hose" ["lays"; "2024"] ".PDF"
              Hdir Hascii Hwords He) as [_ ->].
  reflexivity.
Defined.

(** ** The extension test *)

Lemma app_snoc s1 c s2 : (s1 +:+ String c "") +:+ s2 = s1 +:+ String c s2.
Proof.
  induction s1 as [|d s1 IH]; [done|].
  change (String d ((s1 +:+ String c "") +:+ s2) = String d (s1 +:+ String c s2)).
  by rewrite IH.
Qed.

Lemma split_pop_nosep sep acc s :
  occurs sep s = false → split_pop sep acc s = acc +:+ s.
Proof.
  revert acc. induction s as [|c s IH]; intros acc; simpl.
  - intros _. induction acc as [|d acc IHacc]; [done|].
    change (String d acc = String d (acc +:+ "")). by rewrite <- IHacc.
  - intros [Hc Hs]%orb_false_iff. rewrite Hc, IH by done. apply app_snoc.
Qed.

Lemma split_pop_app sep acc s1 s2 :
  split_pop sep acc (s1 +:+ String sep s2) = split_pop sep "" s2.
Proof.
  revert acc. induction s1 as [|c s1 IH]; intros acc; simpl.
  - by rewrite Ascii.eqb_refl.
  - destruct (Ascii.eqb c sep); apply IH.
Qed.

(** X9: whether a path is shown as an image is decided by what follows
    its last dot, in any letter case: png, jpg or jpeg.  A path without a
    dot is compared as a whole.  Every other path is handed to the PDF
    loader. *)
Theorem isImage_by_last_extension stem ext :
  occurs "." ext = false →
  (App.isImage (stem +:+ "." +:+ ext) = true
     ↔ toLowerCase ext ∈ ["png"; "jpg"; "jpeg"])
  ∧ (App.isImage ext = true ↔ toLowerCase ext ∈ ["png"; "jpg"; "jpeg"]).
Proof.
  intros Hext.
  assert (∀ path, App.extension path = toLowerCase ext →
            App.isImage path = true ↔ toLowerCase ext ∈ ["png"; "jpg"; "jpeg"])
    as Hdecide.
  { intros path Hpath. unfold App.isImage. rewrite Hpath.
    rewrite !orb_true_iff, !bool_decide_eq_true, !elem_of_cons, elem_of_nil.
    tauto. }
  split; apply Hdecide; unfold App.extension.
  - change (stem +:+ "." +:+ ext) with (stem +:+ String "." ext).
    by rewrite split_pop_app, split_pop_nosep.
  - by rewrite split_pop_nosep.
Qed.

Lemma isImage_by_last_extension_witness :
  App.isImage ("maps/sector.4" +:+ "." +:+ "JPG") = true
  ∧ App.isImage ("docs/hose-lays" +:+ "." +:+ "pdf") = false
  ∧ App.isImage "png" = true.
Proof.
  split; [|split].
  - apply (isImage_by_last_extension "maps/sector.4" "JPG"); [reflexivity|].
    compute_done.
  - reflexivity.
  - reflexivity.
Defined.

End DocumentTitle.

(** * The install prompt *)

Section InstallPromptOnce.

Import InstallPrompt.

Lemma step_prompt_count st ev :
  (installButtons st + iosTimers st + iosPrompts st
   = if installPromptShown st then 1 else 0)%nat →
  (installButtons (step st ev) + iosTimers (step st ev) + iosPrompts (step st ev)
   = if installPromptShown (step st ev) then 1 else 0)%nat.
Proof.
  intros Hst. destruct ev as [e|isIOS isInStandaloneMode| | |]; cbn [step].
  - unfold beforeinstallprompt.
    destruct (installPromptShown st) eqn:Hshown; simpl; lia.
  - unfold load.
    destruct isIOS, isInStandaloneMode, (installPromptShown st) eqn:Hshown;
      simpl; rewrite ?Hshown; lia.
  - unfold ios_timer. destruct (iosTimers st) eqn:Htimers; simpl; [lia|].
    destruct (installPromptShown st); lia.
  - done.
  - done.
Qed.

(** X10: the page shows the install prompt at most once.  However many
    [beforeinstallprompt] and [load] events arrive and whatever the
    platform, the install buttons, the pending iOS timers and the iOS
    hints add up to one when the flag is set and to none when it is
    not. *)
Theorem install_prompt_at_most_once events :
  let st := run events in
  (installButtons st + iosTimers st + iosPrompts st
   = if installPromptShown st then 1 else 0)%nat
  ∧ (installButtons st + iosTimers st + iosPrompts st ≤ 1)%nat.
Proof.
  cbv zeta.
  assert (installButtons (run events) + iosTimers (run events) + iosPrompts (run events)
          = if installPromptShown (run events) then 1 else 0)%nat as Hcount.
  { unfold run. induction events as [|ev events IH] using rev_ind; [done|].
    rewrite fold_left_app. cbn [fold_left]. by apply step_prompt_count. }
  split; [done|]. rewrite Hcount. destruct (installPromptShown _); lia.
Qed.

End InstallPromptOnce.

(** * Further properties of the caching worker *)

Section CachingWorkerMore.

Import Worker.

Implicit Types (h : Host) (cs : list (string * gmap string Response)).
Implicit Types (req request url cacheName : string) (r resp : Response).

(** The four ways a fetch event goes. *)
Lemma fetch_event_cases h cs request :
  (∃ cached,
      storage_match cs request = Some cached
      ∧ fetch_event h cs request =
        {| reply := Delivered cached;
           after := {| storage := cs; trace := [OpMatch request]; detached := [] |} |})
  ∨ (storage_match cs request = None
     ∧ fetch h request = Rejected
     ∧ fetch_event h cs request =
       {| reply := respondWith (Fulfilled (storage_match (meanwhile h cs) request));
          after := {| storage := meanwhile h cs;
                      trace := [OpMatch request; OpFetch request; OpMatch request];
                      detached := [] |} |})
  ∨ (∃ r,
       storage_match cs request = None
       ∧ fetch h request = Fulfilled (Some r)
       ∧ fetch_event h cs request =
         {| reply := Delivered r;
            after := {| storage := store_put CACHE_NAME request r
                                     (store_open CACHE_NAME (meanwhile h cs));
                        trace := [OpMatch request; OpFetch request;
                                  OpOpen CACHE_NAME; OpPut CACHE_NAME request r];
                        detached := [] |} |})
  ∨ (∃ fetchResponse,
       storage_match cs request = None
       ∧ fetch h request = Fulfilled fetchResponse
       ∧ fetch_event h cs request =
         {| reply := respondWith (Fulfilled fetchResponse);
            after := {| storage := meanwhile h cs;
                        trace := [OpMatch request; OpFetch request];
                        detached := [] |} |}).
Proof.
  destruct (storage_match cs request) as [cached|] eqn:Hlookup.
  { left. exists cached. split; [done|]. by apply fetch_event_hit. }
  destruct (fetch h request) as [fetchResponse|] eqn:Hnet.
  2:{ right; left. split; [done|]. split; [done|]. by apply fetch_event_rejected. }
  assert ((∃ r, fetchResponse = Some r ∧ status r = 200 ∧ type r = Basic)
          ∨ (∀ r, fetchResponse = Some r → status r ≠ 200 ∨ type r ≠ Basic))
    as [(r & -> & Hstatus & Htype)|Hinvalid].
  { destruct fetchResponse as [r|]; [|by right].
    destruct (decide (status r = 200)); [|right; intros ? [= <-]; by left].
    destruct (decide (type r = Basic)); [left; by exists r|].
    right. intros ? [= <-]. by right. }
  - right; right; left. exists r. split; [done|]. split; [done|].
    by apply fetch_event_cached.
  - right; right; right. exists fetchResponse. split; [done|]. split; [done|].
    by apply fetch_event_passed_on.
Qed.

(** X11: what the fetch handler touches.  Every call it makes is a lookup
    of the request, a network request for it, the opening of the current
    cache or a put of the request into the current cache: it deletes
    nothing, lists nothing and writes under no other key or cache name.  It
    goes to the network once on a miss and not at all on a hit. *)
Theorem fetch_handler_footprint h cs request :
  let out := fetch_event h cs request in
  (∀ op, op ∈ trace (after out) → fetch_footprint request op)
  ∧ length (List.filter is_network_call (trace (after out)))
    = match storage_match cs request with Some _ => 0%nat | None => 1%nat end.
Proof.
  cbv zeta. unfold fetch_footprint.
  destruct (fetch_event_cases h cs request)
    as [(cached & Hhit & ->)|[(Hmiss & _ & ->)|[(r & Hmiss & _ & ->)
        |(fetchResponse & Hmiss & _ & ->)]]];
    rewrite ?Hhit, ?Hmiss; simpl; (split; [|done]); intros op Hop;
    repeat (apply elem_of_cons in Hop as [->|Hop]);
    try (by apply elem_of_nil in Hop); eauto 6.
Qed.

Lemma store_get_open_ne cacheName other cs :
  other ≠ cacheName →
  store_get other (store_open cacheName cs) = store_get other cs.
Proof.
  intros Hne. unfold store_open. case_bool_decide as Hin; [done|]. clear Hin.
  induction cs as [|[n c] cs IH]; simpl.
  - by rewrite bool_decide_eq_false_2.
  - by rewrite IH.
Qed.

(** X12: the fetch handler never replaces and never removes an entry.
    Left alone with cache storage, whatever a cache held for a request
    before an intercepted fetch it holds afterwards: a cached response is
    not refreshed from the network. *)
Theorem fetch_never_overwrites h cs request cacheName req r :
  meanwhile h cs = cs →
  cache_lookup cacheName cs req = Some r →
  cache_lookup cacheName (storage (after (fetch_event h cs request))) req = Some r.
Proof.
  intros Hquiet Hheld.
  destruct (fetch_event_cases h cs request)
    as [(cached & _ & ->)|[(_ & _ & ->)|[(r' & Hmiss & _ & ->)
        |(fetchResponse & _ & _ & ->)]]];
    cbn [after storage]; rewrite ?Hquiet; try done.
  destruct (decide (cacheName = CACHE_NAME)) as [->|Hother].
  - rewrite cache_lookup_put by apply store_open_names.
    case_bool_decide as Hsame.
    + subst req. apply storage_match_of_lookup in Hheld as [[x Hx] _]. congruence.
    + by rewrite cache_lookup_open.
  - unfold cache_lookup in *.
    by rewrite store_get_put_ne, store_get_open_ne.
Qed.

Lemma fetch_never_overwrites_witness :
  let out := fetch_event online two_generations "/docs/hose-lays.pdf" in
  cache_lookup "fire-ops-v0" (storage (after out)) "/index.html" = Some stale_page
  ∧ cache_lookup CACHE_NAME (storage (after out)) "/docs/hose-lays.pdf" = Some hose_lays.
Proof.
  cbv zeta. split; [|vm_compute; reflexivity].
  apply (fetch_never_overwrites online two_generations "/docs/hose-lays.pdf"
           "fire-ops-v0" "/index.html" stale_page); vm_compute; reflexivity.
Defined.

(** X13: when the page's fetch fails.  It fails exactly when cache storage
    has no match and the network request was rejected with still no match
    afterwards, or the network gave no response at all.  A response with an
    error status is delivered like any other. *)
Theorem fetch_fails_only_without_response h cs request :
  reply (fetch_event h cs request) = NetworkError
  ↔ storage_match cs request = None
    ∧ ((fetch h request = Rejected ∧ storage_match (meanwhile h cs) request = None)
       ∨ fetch h request = Fulfilled None).
Proof.
  destruct (fetch_event_cases h cs request)
    as [(cached & Hhit & ->)|[(Hmiss & Hnet & ->)|[(r & Hmiss & Hnet & ->)
        |(fetchResponse & Hmiss & Hnet & ->)]]];
    cbn [reply]; rewrite ?Hhit, ?Hmiss, ?Hnet.
  - split; [done|]. by intros [? _].
  - destruct (storage_match (meanwhile h cs) request); simpl.
    + split; [done|]. intros [_ [[_ ?]|?]]; done.
    + split; [|done]. intros _. split; [done|]. by left.
  - split; [done|]. intros [_ [[? _]|?]]; done.
  - destruct fetchResponse as [r|]; simpl.
    + split; [done|]. intros [_ [[? _]|?]]; done.
    + split; [|done]. intros _. split; [done|]. by right.
Qed.

(** ** Install, activation and what they leave alone *)

Lemma addAll_fold_other (entries : list (string * Response)) cs other :
  other ≠ CACHE_NAME →
  store_get other (foldl (λ cs e, store_put CACHE_NAME e.1 e.2 cs) cs entries)
  = store_get other cs.
Proof.
  intros Hother. revert cs.
  induction entries as [|e entries IH]; intros cs; [done|].
  cbn [foldl]. by rewrite IH, store_get_put_ne.
Qed.

Lemma addAll_fold_outside h urls entries cs req :
  Forall2 (λ u e, addAll_entry h u = Some e) urls entries →
  CACHE_NAME ∈ cs.*1 →
  req ∉ urls →
  cache_lookup CACHE_NAME
    (foldl (λ cs e, store_put CACHE_NAME e.1 e.2 cs) cs entries) req
  = cache_lookup CACHE_NAME cs req.
Proof.
  intros Hall. revert cs.
  induction Hall as [|u e urls entries He Hall IH]; intros cs Hcache Hreq; [done|].
  apply not_elem_of_cons in Hreq as [Hu Hreq].
  cbn [foldl]. rewrite IH; [|by rewrite store_put_names|done].
  rewrite cache_lookup_put by done.
  apply addAll_entry_Some in He as (He1 & _ & _).
  rewrite bool_decide_eq_false_2; [done|]. congruence.
Qed.

(** X14: install writes the manifest and nothing else.  Whether it
    succeeds or fails, the caches of other names are as they were, and in
    the current cache every entry outside the manifest (the documents
    cached on the way) is as it was. *)
Theorem install_touches_only_manifest h cs :
  let reg := dispatch {| phase := Installing; cacheStorage := cs |} (h, InstallEvent) in
  (∀ other, other ≠ CACHE_NAME →
     store_get other (cacheStorage reg) = store_get other cs)
  ∧ (∀ req, req ∉ urlsToCache →
       cache_lookup CACHE_NAME (cacheStorage reg) req
       = cache_lookup CACHE_NAME cs req).
Proof.
  cbv zeta. rewrite dispatch_install.
  destruct (mapM (addAll_entry h) urlsToCache) as [entries|] eqn:Hbatch;
    cbn [cacheStorage].
  - apply mapM_Some in Hbatch. split.
    + intros other Hother.
      by rewrite addAll_fold_other, store_get_open_ne.
    + intros req Hreq.
      rewrite (addAll_fold_outside h urlsToCache); [|done|apply store_open_names|done].
      apply cache_lookup_open.
  - split.
    + intros other Hother. by rewrite store_get_open_ne.
    + intros req _. apply cache_lookup_open.
Qed.

Lemma store_get_purged cs :
  store_get CACHE_NAME
    (filter (λ p : string * gmap string Response, p.1 = CACHE_NAME) cs)
  = store_get CACHE_NAME cs.
Proof.
  induction cs as [|[n c] cs IH]; [done|].
  rewrite filter_cons. cbn [store_get]. case_decide as Hn; simpl in Hn.
  - subst n. cbn [store_get]. by rewrite bool_decide_eq_true_2.
  - by rewrite bool_decide_eq_false_2.
Qed.

(** X15: activation leaves the current cache alone.  The cache named by
    the generation tag holds after activation what it held before, and
    activation does not create it: with no such cache in storage,
    activation leaves storage empty. *)
Theorem activate_keeps_current_cache h cs :
  let reg := dispatch {| phase := Waiting; cacheStorage := cs |} (h, ActivateEvent) in
  store_get CACHE_NAME (cacheStorage reg) = store_get CACHE_NAME cs
  ∧ (∀ req, cache_lookup CACHE_NAME (cacheStorage reg) req
            = cache_lookup CACHE_NAME cs req)
  ∧ (CACHE_NAME ∉ cs.*1 → cacheStorage reg = []).
Proof.
  cbv zeta. rewrite dispatch_activate. cbn [cacheStorage].
  split; [apply store_get_purged|]. split.
  - intros req. unfold cache_lookup. by rewrite store_get_purged.
  - intros Habsent. induction cs as [|[n c] cs IH]; [done|].
    apply not_elem_of_cons in Habsent as [Hn Habsent]. simpl in Hn.
    rewrite filter_cons_False by (simpl; congruence). by apply IH.
Qed.

(** X16: the shell works offline.  Once a version has been installed and
    activated, a fetch for any path of the manifest is answered from the
    cache with the response the network gave at install time, of ok status
    and without a network call, whatever the network does by then and
    whatever cache storage held before the install. *)
Theorem manifest_served_after_activation h h' h'' cs url :
  let reg := lifecycle [(h, InstallEvent); (h', ActivateEvent)]
               {| phase := Installing; cacheStorage := cs |} in
  phase reg = Active →
  url ∈ urlsToCache →
  ∃ r, fetch h url = Fulfilled (Some r)
       ∧ ok r = true
       ∧ fetch_event h'' (cacheStorage reg) url =
         {| reply := Delivered r;
            after := {| storage := cacheStorage reg; trace := [OpMatch url];
                        detached := [] |} |}.
Proof.
  cbv zeta. unfold lifecycle. cbn [foldl]. rewrite dispatch_install.
  destruct (mapM (addAll_entry h) urlsToCache) as [entries|] eqn:Hbatch.
  2:{ by rewrite dispatch_redundant. }
  rewrite dispatch_activate. cbn [phase cacheStorage]. intros _ Hurl.
  apply mapM_Some in Hbatch.
  destruct (addAll_stores h urlsToCache entries (store_open CACHE_NAME cs) url
              Hbatch (store_open_names _ _) Hurl) as (r & Hheld & Hok & Hnet).
  exists r. split; [done|]. split; [done|].
  apply fetch_event_hit.
  apply (storage_match_of_lookup CACHE_NAME).
  - unfold cache_lookup in *. by rewrite store_get_purged.
  - apply (activated_first_holder _ _ r).
    + intros p Hp. by apply list_elem_of_filter in Hp as [Hp _].
    + unfold cache_lookup in *. by rewrite store_get_purged.
Qed.

Lemma manifest_served_after_activation_witness :
  let reg := lifecycle [(online, InstallEvent); (online, ActivateEvent)]
               {| phase := Installing; cacheStorage := two_generations |} in
  phase reg = Active
  ∧ ∃ r, ok r = true
         ∧ reply (fetch_event offline (cacheStorage reg) "/style.css") = Delivered r.
Proof.
  cbv zeta.
  assert (phase (lifecycle [(online, InstallEvent); (online, ActivateEvent)]
                   {| phase := Installing; cacheStorage := two_generations |})
          = Active) as Hactive by (vm_compute; reflexivity).
  assert ("/style.css" ∈ urlsToCache) as Hurl by compute_done.
  split; [exact Hactive|].
  destruct (manifest_served_after_activation online online offline two_generations
              "/style.css" Hactive Hurl) as (r & _ & Hok & Hevent).
  exists r. split; [exact Hok|]. by rewrite Hevent.
Defined.

(** ** Installing twice *)

Lemma store_put_absent cacheName req r cs :
  cacheName ∉ cs.*1 → store_put cacheName req r cs = cs.
Proof.
  unfold store_put. induction cs as [|[n c] cs IH]; [done|].
  rewrite fmap_cons, not_elem_of_cons. intros [Hn Hcs]. simpl in Hn.
  rewrite fmap_cons. cbn [fst snd].
  rewrite bool_decide_eq_false_2 by congruence. f_equal. by apply IH.
Qed.

(** Putting what the cache already holds changes nothing. *)
Lemma store_put_held cacheName req r cs :
  NoDup cs.*1 →
  cache_lookup cacheName cs req = Some r →
  store_put cacheName req r cs = cs.
Proof.
  unfold cache_lookup.
  induction cs as [|[n c] cs IH]; [done|].
  rewrite fmap_cons, NoDup_cons. cbn [fst]. intros [Hn Hcs].
  cbn [store_get]. case_bool_decide as Hname; simpl.
  - subst n. intros Hheld.
    change (store_put cacheName req r ((cacheName, c) :: cs))
      with ((if bool_decide (cacheName = cacheName)
             then (cacheName, <[req := r]> c) else (cacheName, c))
            :: store_put cacheName req r cs).
    rewrite bool_decide_eq_true_2 by done.
    by rewrite insert_id, store_put_absent.
  - intros Hheld.
    change (store_put cacheName req r ((n, c) :: cs))
      with ((if bool_decide (n = cacheName)
             then (n, <[req := r]> c) else (n, c))
            :: store_put cacheName req r cs).
    rewrite bool_decide_eq_false_2 by done. f_equal. by apply IH.
Qed.

Lemma store_open_NoDup cacheName cs :
  NoDup cs.*1 → NoDup (store_open cacheName cs).*1.
Proof.
  unfold store_open. intros Hcs. case_bool_decide as Hin; [done|].
  rewrite fmap_app. apply NoDup_app. split; [done|]. split.
  - intros x Hx ->%list_elem_of_singleton. done.
  - apply NoDup_singleton.
Qed.

Lemma addAll_fold_names (entries : list (string * Response)) cs :
  (foldl (λ cs e, store_put CACHE_NAME e.1 e.2 cs) cs entries).*1 = cs.*1.
Proof.
  revert cs. induction entries as [|e entries IH]; intros cs; [done|].
  cbn [foldl]. by rewrite IH, store_put_names.
Qed.

Lemma addAll_fold_held (entries : list (string * Response)) cs :
  NoDup cs.*1 →
  (∀ e, e ∈ entries → cache_lookup CACHE_NAME cs e.1 = Some e.2) →
  foldl (λ cs e, store_put CACHE_NAME e.1 e.2 cs) cs entries = cs.
Proof.
  intros Hcs. induction entries as [|e entries IH]; intros Hheld; [done|].
  cbn [foldl]. rewrite store_put_held; [|done|apply Hheld, list_elem_of_here].
  apply IH. intros e' He'. by apply Hheld, list_elem_of_further.
Qed.

(** X17: installing again changes nothing.  When an install has succeeded
    and the network still answers as it did, a second install of the same
    version succeeds and leaves cache storage exactly as the first one
    left it. *)
Theorem reinstall_is_idempotent h cs :
  NoDup cs.*1 →
  let reg := dispatch {| phase := Installing; cacheStorage := cs |} (h, InstallEvent) in
  phase reg = Waiting →
  dispatch {| phase := Installing; cacheStorage := cacheStorage reg |} (h, InstallEvent)
  = reg.
Proof.
  intros Hcs. cbv zeta. rewrite !dispatch_install.
  destruct (mapM (addAll_entry h) urlsToCache) as [entries|] eqn:Hbatch; [|done].
  intros _. cbn [cacheStorage]. f_equal.
  apply mapM_Some in Hbatch.
  set (cs1 := foldl (λ cs e, store_put CACHE_NAME e.1 e.2 cs)
                (store_open CACHE_NAME cs) entries).
  assert (cs1.*1 = (store_open CACHE_NAME cs).*1) as Hnames
    by apply addAll_fold_names.
  assert (store_open CACHE_NAME cs1 = cs1) as ->.
  { unfold store_open at 1. rewrite bool_decide_eq_true_2; [done|].
    rewrite Hnames. apply store_open_names. }
  apply addAll_fold_held.
  - rewrite Hnames. by apply store_open_NoDup.
  - intros e He.
    apply list_elem_of_lookup in He as [i He].
    destruct (Forall2_lookup_r _ _ _ _ _ Hbatch He) as (u & Hu & Hentry).
    apply list_elem_of_lookup_2 in Hu.
    destruct (addAll_stores h urlsToCache entries (store_open CACHE_NAME cs) u
                Hbatch (store_open_names _ _) Hu) as (r & Hheld & _ & Hnet).
    apply addAll_entry_Some in Hentry as (He1 & He2 & _).
    rewrite He1. fold cs1 in Hheld. congruence.
Qed.

Lemma reinstall_is_idempotent_witness :
  let reg := dispatch {| phase := Installing; cacheStorage := two_generations |}
               (online, InstallEvent) in
  NoDup two_generations.*1
  ∧ phase reg = Waiting
  ∧ cache_lookup CACHE_NAME (cacheStorage reg) "/app.js" = Some shell_page
  ∧ dispatch {| phase := Installing; cacheStorage := cacheStorage reg |}
      (online, InstallEvent) = reg.
Proof.
  cbv zeta.
  assert (NoDup two_generations.*1) as Hnames by compute_done.
  assert (phase (dispatch {| phase := Installing; cacheStorage := two_generations |}
                   (online, InstallEvent)) = Waiting) as Hphase
    by (vm_compute; reflexivity).
  split; [exact Hnames|]. split; [exact Hphase|].
  split; [vm_compute; reflexivity|].
  exact (reinstall_is_idempotent online two_generations Hnames Hphase).
Defined.

End CachingWorkerMore.

Section ActiveWorker.

Import Worker.

(** X18: what an active worker sees and serves.  In the life of a version,
    from install on and with nobody else adding caches, cache storage
    holds no cache but the current one by the time the worker is Active,
    and a fetch it finds there is answered with that very entry, by the
    lookup alone and with storage left as it is. *)
Theorem active_worker_serves_own_cache events cs h request r :
  (∀ e cs', e ∈ events → purged cs' → purged (meanwhile e.1 cs')) →
  let reg := lifecycle events {| phase := Installing; cacheStorage := cs |} in
  phase reg = Active →
  cache_lookup CACHE_NAME (cacheStorage reg) request = Some r →
  purged (cacheStorage reg)
  ∧ fetch_event h (cacheStorage reg) request =
    {| reply := Delivered r;
       after := {| storage := cacheStorage reg; trace := [OpMatch request];
                   detached := [] |} |}.
Proof.
  intros Hquiet. cbv zeta. intros Hactive Hheld.
  pose proof (lifecycle_active_purged events cs Hquiet Hactive) as Hpurged.
  split; [done|].
  apply fetch_event_hit, (storage_match_of_lookup CACHE_NAME); [done|].
  by apply (activated_first_holder _ _ r).
Qed.

Lemma active_worker_serves_own_cache_witness :
  let events := [(online, InstallEvent); (online, ActivateEvent);
                 (online, FetchEvent "/docs/hose-lays.pdf")] in
  let reg := lifecycle events {| phase := Installing; cacheStorage := two_generations |} in
  phase reg = Active
  ∧ reply (fetch_event offline (cacheStorage reg) "/docs/hose-lays.pdf")
    = Delivered hose_lays
  ∧ reply (fetch_event offline (cacheStorage reg) "/index.html") = Delivered shell_page.
Proof.
  cbv zeta.
  set (events := [(online, InstallEvent); (online, ActivateEvent);
                  (online, FetchEvent "/docs/hose-lays.pdf")]).
  assert (∀ e cs', e ∈ events → purged cs' → purged (meanwhile e.1 cs')) as Hquiet.
  { intros e cs' He Hcs'. unfold events in He.
    repeat (apply elem_of_cons in He as [->|He]); try done.
    by apply elem_of_nil in He. }
  assert (phase (lifecycle events
                   {| phase := Installing; cacheStorage := two_generations |}) = Active)
    as Hactive by (vm_compute; reflexivity).
  split; [exact Hactive|]. split.
  - destruct (active_worker_serves_own_cache events two_generations offline
                "/docs/hose-lays.pdf" hose_lays Hquiet Hactive) as [_ ->];
      [vm_compute|]; reflexivity.
  - destruct (active_worker_serves_own_cache events two_generations offline
                "/index.html" shell_page Hquiet Hactive) as [_ ->];
      [vm_compute|]; reflexivity.
Defined.

End ActiveWorker.
